(** * Self-avoiding walks on a square lattice: a model of [Models.py]

    The development embeds the two classes of [Models.py], [SAW] and
    [SAWEarly], as Rocq functions and proves properties of the walks they
    construct.

    Conventions of the embedding:
    - Python integers are [Z]; lengths and counters are [nat].
    - The lattice is a NumPy array of shape (N, N).  It is a list of rows,
      read and written through [getitem] and [setitem], which follow NumPy's
      indexing: an index in [-len, len) is accepted (a negative one counts
      from the end), any other raises [IndexError].  The cells hold the
      values 0.0 to 4.0 of a float64 array; those are exact integers and are
      kept in [Z].
    - Exceptions are explicit: a call yields [Ok v] or [Err e]; a
      construction, which runs the [while] loop of [_evolution] under a
      bound on its turns, yields [Done v], [Raise e], or [OutOfFuel] when
      the bound ran out.  The loop is shown to end within N * N turns.
    - [np.random] is an oracle: the results of the successive calls of
      [randint] and of [uniform] are two sequences, and the state of the
      generator is the number of calls made so far.
    - [self.x] and [self.y] hold integers or [None]: [_walk] returns
      [(None, None)] when it is asked to leave row or column N.
    - [trial_probability] computes in binary64, with Rocq's primitive
      floats. *)

From Stdlib Require Import ZArith Floats Uint63 Lia.
From stdpp Require Import base option list gmap.

(** ** Exceptions and outcomes *)

Inductive exn : Set := IndexError | TypeError.

(** What a call yields: a value, or an exception. *)
Inductive result (A : Type) : Type :=
  | Ok (a : A)
  | Err (e : exn).
Arguments Ok {A} a.
Arguments Err {A} e.

(** What a construction yields: a value, an exception, or nothing when the
    bound on the turns of its loop ran out. *)
Inductive outcome (A : Type) : Type :=
  | Done (a : A)
  | Raise (e : exn)
  | OutOfFuel.
Arguments Done {A} a.
Arguments Raise {A} e.
Arguments OutOfFuel {A}.

Definition lift {A : Type} (r : result A) : outcome A :=
  match r with
  | Ok a => Done a
  | Err e => Raise e
  end.

#[global] Instance result_ret : MRet result := λ A a, Ok a.
#[global] Instance result_bind : MBind result := λ A B f m,
  match m with
  | Ok a => f a
  | Err e => Err e
  end.

#[global] Instance outcome_ret : MRet outcome := λ A a, Done a.
#[global] Instance outcome_bind : MBind outcome := λ A B f m,
  match m with
  | Done a => f a
  | Raise e => Raise e
  | OutOfFuel => OutOfFuel
  end.

(** ** NumPy arrays of shape (N, N) *)

Abbreviation ndarray := (list (list Z)).
Abbreviation pos := (Z * Z)%type.

(** [np.zeros((N, N))]; NumPy refuses a negative N. *)
Definition zeros (N : nat) : ndarray := replicate N (replicate N 0%Z).

(** Index normalisation along one axis of length [len]. *)
Definition np_index (len : nat) (a : Z) : option nat :=
  if bool_decide (0 ≤ a < Z.of_nat len)%Z then Some (Z.to_nat a)
  else if bool_decide (- Z.of_nat len ≤ a < 0)%Z then Some (Z.to_nat (a + Z.of_nat len))
  else None.

(** [matrix[indexes]] for a pair [indexes]. *)
Definition getitem (matrix : ndarray) (indexes : pos) : result Z :=
  match np_index (length matrix) indexes.1 with
  | None => Err IndexError
  | Some r =>
      match matrix !! r with
      | None => Err IndexError
      | Some row =>
          match np_index (length row) indexes.2 with
          | None => Err IndexError
          | Some c =>
              match row !! c with
              | None => Err IndexError
              | Some v => Ok v
              end
          end
      end
  end.

(** [matrix[i, j] = v] *)
Definition setitem (matrix : ndarray) (indexes : pos) (v : Z) : result ndarray :=
  match np_index (length matrix) indexes.1 with
  | None => Err IndexError
  | Some r =>
      match matrix !! r with
      | None => Err IndexError
      | Some row =>
          match np_index (length row) indexes.2 with
          | None => Err IndexError
          | Some c => Ok (<[r := <[c := v]> row]> matrix)
          end
      end
  end.

(** ** The random source *)

(** The results of the successive calls of [randint] (before reduction to
    the range asked for) and of [uniform]. *)
Record random_source : Type := RandomSource {
  randint_draws : nat → nat;
  uniform_draws : nat → float
}.

(** The state of the generator: the number of calls made so far. *)
Record rng_state : Set := RngState {
  randint_calls : nat;
  uniform_calls : nat
}.

Definition rng_start : rng_state := RngState 0 0.

(** [np.random.randint(0, high=n)]: a value of [0, n), any of them for a
    suitable draw. *)
Definition randint (R : random_source) (g : rng_state) (n : nat) : nat * rng_state :=
  (randint_draws R (randint_calls g) `mod` n,
   RngState (S (randint_calls g)) (uniform_calls g)).

(** [np.random.uniform()] *)
Definition uniform (R : random_source) (g : rng_state) : float * rng_state :=
  (uniform_draws R (uniform_calls g),
   RngState (randint_calls g) (S (uniform_calls g))).

(** What [uniform] promises: a value of [0, 1). *)
Definition unit_interval (u : float) : Prop :=
  (u <? 0)%float = false ∧ (u <? 1)%float = true.

Definition uniform_source (R : random_source) : Prop :=
  ∀ n, unit_interval (uniform_draws R n).

(** ** The state of a walk under construction

    The attributes [self.grid], [self.k], [self.x], [self.y] and the locals
    [i, j] (both integers, or both [None]) and [n_steps] of [_evolution],
    with the state of the random generator. *)

Record frame : Type := Frame {
  f_grid : ndarray;
  f_k : list nat;
  f_x : list (option Z);
  f_y : list (option Z);
  f_ij : option pos;
  f_n_steps : nat;
  f_rng : rng_state
}.

(** The constructed object. *)
Record walker : Type := Walker {
  self_grid : ndarray;
  self_k : list nat;
  self_x : list (option Z);
  self_y : list (option Z);
  self_n_walks : nat
}.

(** The trajectory: [self.x] and [self.y] read as one sequence of pairs. *)
Definition trajectory (w : walker) : list (option Z * option Z) :=
  zip (self_x w) (self_y w).

Definition f_trajectory (f : frame) : list (option Z * option Z) :=
  zip (f_x f) (f_y f).

(** [while not colide: body].  A turn of the body yields the frame it leaves
    and the value of [colide], every [colide = True] of a body being followed
    by [break]. *)
Fixpoint while_not_colide (body : frame → result (bool * frame)) (fuel : nat)
    (f : frame) : outcome frame :=
  match fuel with
  | O => OutOfFuel
  | S fuel' =>
      match body f with
      | Ok (false, f') => while_not_colide body fuel' f'
      | Ok (true, f') => Done f'
      | Err e => Raise e
      end
  end.

Module SAW.

(** [self._grid(N)] *)
Definition _grid (N : nat) : ndarray := zeros N.

(** [self._choose_uniformly(x)] *)
Definition _choose_uniformly {A : Type} (R : random_source) (g : rng_state)
    (x : list A) : result (A * rng_state) :=
  let n := length x in
  let '(index, g) := if decide (1 < n) then randint R g n else (0, g) in
  match x !! index with
  | Some v => Ok (v, g)
  | None => Err IndexError
  end.

(** [self._walk(matrix, i, j, direction)]: the array after the call and the
    pair returned, [None] standing for [(None, None)].  A direction other
    than 1..4 falls through every branch, the method returns [None] and
    the caller's [i, j = ...] raises [TypeError]. *)
Definition _walk (matrix : ndarray) (i j : Z) (direction : Z)
    : result (ndarray * option pos) :=
  if decide (i = Z.of_nat (length matrix) ∨ j = Z.of_nat (length matrix)) then
    Ok (matrix, None)
  else if decide (direction = 1%Z) then
    matrix ← setitem matrix (i, j) direction; Ok (matrix, Some (i, j - 1)%Z)
  else if decide (direction = 2%Z) then
    matrix ← setitem matrix (i, j) direction; Ok (matrix, Some (i, j + 1)%Z)
  else if decide (direction = 3%Z) then
    matrix ← setitem matrix (i, j) direction; Ok (matrix, Some (i - 1, j)%Z)
  else if decide (direction = 4%Z) then
    matrix ← setitem matrix (i, j) direction; Ok (matrix, Some (i + 1, j)%Z)
  else Err TypeError.

(** The dictionary [possible_walks] of [_check_walks], in insertion order. *)
Definition possible_walks_dict (i j : Z) : list (Z * pos) :=
  [(1, (i, j - 1)); (2, (i, j + 1)); (3, (i - 1, j)); (4, (i + 1, j))]%Z.

(** The test of the [try] block, [True] too when the lookup raises. *)
Definition impossible (matrix : ndarray) (indexes : pos) : bool :=
  match getitem matrix indexes with
  | Ok v => negb (v =? 0)%Z || (indexes.1 <? 0)%Z || (indexes.2 <? 0)%Z
  | Err _ => true
  end.

(** [d.pop(key)] *)
Definition dict_pop (key : Z) (d : list (Z * pos)) : list (Z * pos) :=
  filter (λ e, e.1 ≠ key) d.

(** [self._check_walks(matrix, i, j)] *)
Definition _check_walks (matrix : ndarray) (i j : Z) : list Z * list pos :=
  let possible_walks := possible_walks_dict i j in
  let impossible_walks :=
    (filter (λ e, impossible matrix e.2 = true) possible_walks).*1 in
  let possible_walks :=
    foldl (λ d delete, dict_pop delete d) possible_walks impossible_walks in
  (possible_walks.*1, possible_walks.*2).

(** [self.k.append(n)] and [self.k.pop(-1)] *)
Definition log_append (n : nat) (f : frame) : frame :=
  Frame (f_grid f) (f_k f ++ [n]) (f_x f) (f_y f) (f_ij f) (f_n_steps f) (f_rng f).

Definition log_pop (f : frame) : frame :=
  Frame (f_grid f) (removelast (f_k f)) (f_x f) (f_y f) (f_ij f) (f_n_steps f) (f_rng f).

(** The four statements that take a step from [(i, j)], the same wherever
    [_evolution] has them:
    [direction = self._choose_uniformly(possible_walks)],
    [i, j = self._walk(self.grid, i, j, direction)],
    [self.x.append(i); self.y.append(j)] and [n_steps += 1]. *)
Definition take_step (R : random_source) (i j : Z) (possible_walks : list Z)
    (f : frame) : result frame :=
  '(direction, g) ← _choose_uniformly R (f_rng f) possible_walks;
  '(matrix, ij) ← _walk (f_grid f) i j direction;
  Ok (Frame matrix (f_k f)
            (f_x f ++ [fst <$> ij]) (f_y f ++ [snd <$> ij])
            ij (f_n_steps f + 1) g).

(** [initial = (self.x[0], self.y[0])], as integers for [_check_walks]. *)
Definition initial (f : frame) : result pos :=
  match f_x f !! 0, f_y f !! 0 with
  | Some (Some i), Some (Some j) => Ok (i, j)
  | Some _, Some _ => Err TypeError
  | _, _ => Err IndexError
  end.

(** [_evolution] up to the loop: the first walk. *)
Definition first_walk (R : random_source) (f : frame) : result frame :=
  '(i, j) ← initial f;
  let '(possible_walks, possible_values) := _check_walks (f_grid f) i j in
  let f := log_append (length possible_walks) f in
  take_step R i j possible_walks f.

(** One turn of the loop of [_evolution]; [_check_walks] on [None, None]
    raises [TypeError]. *)
Definition loop_body (R : random_source) (f : frame) : result (bool * frame) :=
  match f_ij f with
  | None => Err TypeError
  | Some (i, j) =>
      let '(possible_walks, possible_values) := _check_walks (f_grid f) i j in
      let f := log_append (length possible_walks) f in
      if decide (length possible_walks = 0) then Ok (true, log_pop f)
      else f ← take_step R i j possible_walks f; Ok (false, f)
  end.

Definition _evolution (fuel : nat) (R : random_source) (f : frame) : outcome frame :=
  f ← lift (first_walk R f);
  while_not_colide (loop_body R) fuel f.

(** The attributes set by [__init__] before it calls [_evolution]. *)
Definition fresh (N : nat) (initial_x initial_y : Z) (g : rng_state) : frame :=
  Frame (_grid N) [] [Some initial_x] [Some initial_y] None 0 g.

(** The object once [self.n_walks] is set. *)
Definition finish (f : frame) : walker :=
  Walker (f_grid f) (f_k f) (f_x f) (f_y f) (f_n_steps f).

(** [SAW(N, initial_x, initial_y)] *)
Definition __init__ (fuel : nat) (R : random_source) (N : nat)
    (initial_x initial_y : Z) : outcome walker :=
  f ← _evolution fuel R (fresh N initial_x initial_y rng_start);
  Done (finish f).

(** [number_of_walks] *)
Definition number_of_walks (w : walker) : nat := self_n_walks w.

(** [np.array(self.k)] then [1 / ...]: each count becomes a binary64. *)
Definition float_of_count (n : nat) : float :=
  PrimFloat.of_uint63 (Uint63.of_Z (Z.of_nat n)).

Definition reciprocals (k : list nat) : list float :=
  map (λ n, (1 / float_of_count n)%float) k.

(** [a.cumprod()] *)
Fixpoint cumprod_from (acc : float) (l : list float) : list float :=
  match l with
  | [] => []
  | a :: l => (acc * a)%float :: cumprod_from (acc * a)%float l
  end.

Definition cumprod (l : list float) : list float :=
  match l with
  | [] => []
  | a :: l => a :: cumprod_from a l
  end.

(** [trial_probability]: [g[-1]] raises [IndexError] on an empty [g]. *)
Definition trial_probability (w : walker) : result float :=
  let g := cumprod (reciprocals (self_k w)) in
  match last g with
  | Some v => Ok v
  | None => Err IndexError
  end.

End SAW.

Module SAWEarly.

(** One turn of the loop of [SAWEarly._evolution]. *)
Definition loop_body (terminate_probability : float) (R : random_source)
    (f : frame) : result (bool * frame) :=
  match f_ij f with
  | None => Err TypeError
  | Some (i, j) =>
      let '(possible_walks, possible_values) := SAW._check_walks (f_grid f) i j in
      let f := SAW.log_append (length possible_walks) f in
      let '(u, g) := uniform R (f_rng f) in
      let f := Frame (f_grid f) (f_k f) (f_x f) (f_y f) (f_ij f) (f_n_steps f) g in
      if (u <? terminate_probability)%float then
        Ok (true, if decide (length possible_walks = 0) then SAW.log_pop f else f)
      else if decide (length possible_walks = 0) then Ok (true, SAW.log_pop f)
      else f ← SAW.take_step R i j possible_walks f; Ok (false, f)
  end.

(** [_evolution] up to the loop: the draw that may set [colide], then the
    first walk all the same. *)
Definition first_walk (terminate_probability : float) (R : random_source)
    (f : frame) : result (bool * frame) :=
  '(i, j) ← SAW.initial f;
  let '(possible_walks, possible_values) := SAW._check_walks (f_grid f) i j in
  let f := SAW.log_append (length possible_walks) f in
  let '(u, g) := uniform R (f_rng f) in
  let f := Frame (f_grid f) (f_k f) (f_x f) (f_y f) (f_ij f) (f_n_steps f) g in
  let colide := (u <? terminate_probability)%float in
  f ← SAW.take_step R i j possible_walks f;
  Ok (colide, f).

Definition _evolution (fuel : nat) (terminate_probability : float)
    (R : random_source) (f : frame) : outcome frame :=
  '(colide, f) ← lift (first_walk terminate_probability R f);
  if (colide : bool) then Done f
  else while_not_colide (loop_body terminate_probability R) fuel f.

(** [SAWEarly(N, initial_x, initial_y, terminate_probability)]:
    [self.terminate_probability] is set, then [SAW.__init__] runs with the
    [_evolution] of this class. *)
Definition __init__ (fuel : nat) (R : random_source) (N : nat)
    (initial_x initial_y : Z) (terminate_probability : float) : outcome walker :=
  f ← _evolution fuel terminate_probability R
        (SAW.fresh N initial_x initial_y rng_start);
  Done (SAW.finish f).

End SAWEarly.

Local Open Scope Z_scope.

(** ** Vocabulary of the properties *)

(** A lattice of shape (N, N). *)
Definition wf_grid (N : nat) (m : ndarray) : Prop :=
  length m = N ∧ Forall (λ row : list Z, length row = N) m.

(** A position of the lattice: both coordinates in [0, N). *)
Definition in_bounds (N : nat) (p : pos) : Prop :=
  (0 ≤ p.1 < Z.of_nat N) ∧ (0 ≤ p.2 < Z.of_nat N).

(** The value of the cell at a position of the lattice, read without any
    index normalisation. *)
Definition cell (m : ndarray) (p : pos) : option Z :=
  m !! Z.to_nat p.1 ≫= λ row, row !! Z.to_nat p.2.

(** The position one unit away in a direction: left is column - 1, right is
    column + 1, up is row - 1, down is row + 1. *)
Definition target (p : pos) (direction : Z) : pos :=
  if decide (direction = 1) then (p.1, p.2 - 1)
  else if decide (direction = 2) then (p.1, p.2 + 1)
  else if decide (direction = 3) then (p.1 - 1, p.2)
  else (p.1 + 1, p.2).

(** A legal move: the target is a position of the lattice and its cell is
    unvisited. *)
Definition legal (N : nat) (m : ndarray) (p : pos) : Prop :=
  in_bounds N p ∧ cell m p = Some 0.

#[global] Instance in_bounds_dec N p : Decision (in_bounds N p).
Proof. unfold in_bounds. apply _. Defined.

#[global] Instance legal_dec N m p : Decision (legal N m p).
Proof. unfold legal. apply _. Defined.

(** The directions in the order [_check_walks] tries them. *)
Definition directions : list Z := [1; 2; 3; 4].

Definition legal_directions (N : nat) (m : ndarray) (p : pos) : list Z :=
  filter (λ d, legal N m (target p d)) directions.

(** An entry of the trajectory that is a pair of integers. *)
Definition at_pos (q : pos) : option Z * option Z := (Some q.1, Some q.2).

(** An entry of the trajectory that is a position of the lattice. *)
Definition on_lattice (N : nat) (e : option Z * option Z) : Prop :=
  ∃ q, in_bounds N q ∧ e = at_pos q.

(** The positions of the lattice, row by row. *)
Definition cells (N : nat) : list pos :=
  list_prod (seqZ 0 (Z.of_nat N)) (seqZ 0 (Z.of_nat N)).

(** The number of cells of the lattice that hold 0. *)
Definition free_cells (N : nat) (m : ndarray) : nat :=
  length (filter (λ q, cell m q = Some 0) (cells N)).

(** The state of a walk that has taken its first step and stands on the
    lattice: the trajectory has no repetition, it ends where the walker
    stands, every earlier position of the lattice on it is marked, and every
    entry after the first is a position of the lattice. *)
Record walking (N : nat) (f : frame) : Prop := Walking {
  walking_wf : wf_grid N (f_grid f);
  walking_len : length (f_x f) = length (f_y f);
  walking_nodup : NoDup (f_trajectory f);
  walking_here :
    ∃ p, f_ij f = Some p ∧ in_bounds N p ∧ last (f_trajectory f) = Some (at_pos p);
  walking_marked :
    ∀ p q, f_ij f = Some p → in_bounds N q → at_pos q ∈ f_trajectory f →
           q ≠ p → cell (f_grid f) q ≠ Some 0;
  walking_steps :
    ∃ p0 tl, f_trajectory f = p0 :: tl ∧ Forall (on_lattice N) tl ∧
             f_n_steps f = length tl
}.

(** What holds besides when the walk started on the lattice: the whole
    trajectory is on the lattice, the cell the walker stands on holds 0, only
    cells of the trajectory are marked, a cell the walker has left holds
    the code of the direction it left by, and every step has taken one cell
    from the free ones. *)
Record tagged (N : nat) (f : frame) : Prop := Tagged {
  tagged_all : Forall (on_lattice N) (f_trajectory f);
  tagged_here : ∀ p, f_ij f = Some p → cell (f_grid f) p = Some 0;
  tagged_only :
    ∀ q, in_bounds N q → cell (f_grid f) q ≠ Some 0 → at_pos q ∈ f_trajectory f;
  tagged_code :
    ∀ t q q', f_trajectory f !! t = Some (at_pos q) →
              f_trajectory f !! S t = Some (at_pos q') →
              ∃ d, d ∈ directions ∧ cell (f_grid f) q = Some d ∧ q' = target q d;
  tagged_free : (free_cells N (f_grid f) + f_n_steps f = N * N)%nat
}.

(** The frames a loop goes through, from the frame [f1] it is entered with. *)
Inductive during (body : frame → result (bool * frame)) (f1 : frame)
    : frame → Prop :=
  | during_first : during body f1 f1
  | during_next f colide f' :
      during body f1 f → body f = Ok (colide, f') → during body f1 f'.

(** An accepted step from [f] to [f']: the walker leaves a cell that held 0,
    which now holds the code of the direction taken, for the target in that
    direction; no other cell of the lattice changes. *)
Definition departs (N : nat) (f f' : frame) : Prop :=
  ∃ p d, f_ij f = Some p ∧ d ∈ directions ∧
         cell (f_grid f) p = Some 0 ∧ cell (f_grid f') p = Some d ∧
         f_ij f' = Some (target p d) ∧
         f_trajectory f' = f_trajectory f ++ [at_pos (target p d)] ∧
         f_n_steps f' = S (f_n_steps f) ∧
         ∀ q, in_bounds N q → q ≠ p → cell (f_grid f') q = cell (f_grid f) q.

(** Two frames that differ at most in the log and in the random generator. *)
Definition same_walk (f f' : frame) : Prop :=
  f_grid f' = f_grid f ∧ f_x f' = f_x f ∧ f_y f' = f_y f ∧
  f_ij f' = f_ij f ∧ f_n_steps f' = f_n_steps f.

(** What the loops of the two variants have in common, on a frame whose
    walker stands at [p]: a turn that continues has logged the number of
    legal directions, which is not 0, and taken a step in one of them; a turn
    that breaks leaves the walk as it was, with the log as it was or with a
    number that is not 0 appended. *)
Definition walk_body (N : nat) (R : random_source)
    (body : frame → result (bool * frame)) : Prop :=
  ∀ f p, wf_grid N (f_grid f) → f_ij f = Some p →
    let n := length (legal_directions N (f_grid f) p) in
    (∀ f', body f = Ok (false, f') →
       n ≠ 0%nat ∧
       ∃ f0, same_walk f f0 ∧ f_k f0 = f_k f ++ [n] ∧
             SAW.take_step R p.1 p.2 (legal_directions N (f_grid f) p) f0 = Ok f') ∧
    (∀ f', body f = Ok (true, f') →
       same_walk f f' ∧
       (f_k f' = f_k f ∨ (n ≠ 0%nat ∧ f_k f' = f_k f ++ [n]))) ∧
    (in_bounds N p → ∀ e, body f ≠ Err e).

(** A log whose entries are counts of legal directions, none of them 0. *)
Definition log_ok (k : list nat) : Prop := Forall (λ n, 1 ≤ n ≤ 4)%nat k.

(** The state after a first step taken from row or column N, off the
    lattice: [_walk] printed its error and returned [(None, None)]. *)
Definition stalled (N : nat) (x0 y0 : Z) (f : frame) : Prop :=
  ¬ in_bounds N (x0, y0) ∧ f_ij f = None ∧ f_grid f = zeros N ∧
  f_x f = [Some x0; None] ∧ f_y f = [Some y0; None] ∧
  f_n_steps f = 1%nat ∧ (1 ≤ N)%nat.

(** [w] is a walk constructed, by either class, on a lattice of size N from
    the initial position [(x0, y0)]. *)
Definition constructs (N : nat) (x0 y0 : Z) (w : walker) : Prop :=
  (∃ fuel R, SAW.__init__ fuel R N x0 y0 = Done w) ∨
  (∃ fuel R tp, SAWEarly.__init__ fuel R N x0 y0 tp = Done w).

(** No legal move is left where the walk ended. *)
Definition trapped (w : walker) : Prop :=
  ∃ p, last (trajectory w) = Some (at_pos p) ∧
       SAW._check_walks (self_grid w) p.1 p.2 = ([], []).

(** Two frames that differ at most in the number of calls of [uniform]. *)
Definition same_but_uniform (f f' : frame) : Prop :=
  f_grid f = f_grid f' ∧ f_k f = f_k f' ∧ f_x f = f_x f' ∧ f_y f = f_y f' ∧
  f_ij f = f_ij f' ∧ f_n_steps f = f_n_steps f' ∧
  randint_calls (f_rng f) = randint_calls (f_rng f').

(** Results and outcomes of the same kind, with values related by [P]. *)
Definition result_rel {A : Type} (P : A → A → Prop) (a b : result A) : Prop :=
  match a, b with
  | Ok x, Ok y => P x y
  | Err e, Err e' => e = e'
  | _, _ => False
  end.

Definition outcome_rel {A : Type} (P : A → A → Prop) (a b : outcome A) : Prop :=
  match a, b with
  | Done x, Done y => P x y
  | Raise e, Raise e' => e = e'
  | OutOfFuel, OutOfFuel => True
  | _, _ => False
  end.

(** The tags of the lattice in a frame: the cell the walker stands on holds
    0, the cells that are not 0 are the other positions of the trajectory,
    each holds the code of the direction by which the walker went on from
    it, and a step that the loop accepts is a departure. *)
Definition departure_tags (N : nat) (body : frame → result (bool * frame))
    (f : frame) : Prop :=
  (∃ p, f_ij f = Some p ∧ last (f_trajectory f) = Some (at_pos p) ∧
        cell (f_grid f) p = Some 0 ∧
        ∀ q, in_bounds N q →
             cell (f_grid f) q ≠ Some 0 ↔ at_pos q ∈ f_trajectory f ∧ q ≠ p) ∧
  (∀ t q q', f_trajectory f !! t = Some (at_pos q) →
             f_trajectory f !! S t = Some (at_pos q') →
             ∃ d, d ∈ directions ∧ cell (f_grid f) q = Some d ∧ q' = target q d) ∧
  (∀ f', body f = Ok (false, f') → departs N f f').

(** The frame [f1] and the loop a construction enters after its first
    walk. *)
Definition enters (N : nat) (x0 y0 : Z) (body : frame → result (bool * frame))
    (f1 : frame) : Prop :=
  (∃ R, SAW.first_walk R (SAW.fresh N x0 y0 rng_start) = Ok f1 ∧
        body = SAW.loop_body R) ∨
  (∃ R tp c, SAWEarly.first_walk tp R (SAW.fresh N x0 y0 rng_start) = Ok (c, f1) ∧
             body = SAWEarly.loop_body tp R).

(** The product of a sequence of binary64 numbers, in the order of the
    sequence. *)
Definition product (l : list float) : float :=
  match l with
  | [] => 1%float
  | a :: l => foldl PrimFloat.mul a l
  end.

(** Two positions one unit apart along one axis. *)
Definition unit_step (q q' : pos) : Prop :=
  Z.abs (q'.1 - q.1) + Z.abs (q'.2 - q.2) = 1.

(** A trajectory whose consecutive integer positions are one unit apart. *)
Definition lattice_path (tr : list (option Z * option Z)) : Prop :=
  ∀ t q q', tr !! t = Some (at_pos q) → tr !! S t = Some (at_pos q') →
            unit_step q q'.

(** A lattice that holds only 0 and direction codes. *)
Definition codes_only (m : ndarray) : Prop :=
  Forall (Forall (λ v : Z, 0 ≤ v ≤ 4)) m.

(** The bookkeeping of a walk after its first step: at least one step is
    counted, [self.x] and [self.y] have one entry more than there are steps,
    the lattice holds only 0 and direction codes, and the trajectory moves
    one unit at a time. *)
Record accounted (f : frame) : Prop := Accounted {
  accounted_steps : (1 ≤ f_n_steps f)%nat;
  accounted_x : length (f_x f) = S (f_n_steps f);
  accounted_y : length (f_y f) = S (f_n_steps f);
  accounted_codes : codes_only (f_grid f);
  accounted_path : lattice_path (f_trajectory f)
}.

(** The log against the step counter: as long as the step counter, or one
    longer with a legal direction left where the walker stands. *)
Definition log_length (N : nat) (f : frame) : Prop :=
  length (f_k f) = f_n_steps f ∨
  (length (f_k f) = S (f_n_steps f) ∧
   ∃ p, f_ij f = Some p ∧ legal_directions N (f_grid f) p ≠ []).

(** The calls of [randint] a log accounts for: one for each entry above 1. *)
Definition choices (k : list nat) : nat :=
  length (filter (λ n, 1 < n)%nat k).

(** A walker that cannot go back: some direction from where it stands leads
    off the lattice or to a marked cell. *)
Definition hemmed (N : nat) (f : frame) : Prop :=
  ∃ p d, f_ij f = Some p ∧ d ∈ directions ∧ ¬ legal N (f_grid f) (target p d).

(** A log whose first entry is a count of 1..4 and whose later entries are
    counts of 1..3. *)
Definition log_narrows (k : list nat) : Prop :=
  ∃ n0 rest, k = n0 :: rest ∧ (1 ≤ n0 ≤ 4)%nat ∧
             Forall (λ n, 1 ≤ n ≤ 3)%nat rest.

(** The walk [SAWEarly] returns when its first step was refused and the
    first draw had set [colide]. *)
Definition refused_walk (N : nat) (x0 y0 : Z) : walker :=
  Walker (zeros N) [length (legal_directions N (zeros N) (x0, y0))]
         [Some x0; None] [Some y0; None] 1.

(** The reciprocal 1/k of a branching factor, in the words of the
    specification (4.7) and in binary64; it does not go through the code of
    [trial_probability]. *)
Definition reciprocal (k : nat) : float :=
  (1 / PrimFloat.of_uint63 (Uint63.of_Z (Z.of_nat k)))%float.

(** The product, over a log, of the reciprocals of its branching factors. *)
Definition reciprocal_product (k : list nat) : float :=
  product (map reciprocal k).

(** ** Sample data *)

(** A random source whose [randint] draws are all 0 and whose [uniform]
    draws are all 0.5. *)
Definition first_source : random_source :=
  RandomSource (λ _, 0%nat) (λ _, 0.5%float).

(** The walk [SAW(2)] constructs with [first_source]: right, down, left. *)
Definition sample_walk : walker :=
  Walker [ [2; 4]; [0; 1] ] [2; 1; 1]%nat
         [Some 0; Some 0; Some 1; Some 1] [Some 0; Some 1; Some 1; Some 0] 3.

(** The walk [SAW(2, -1, 0)] constructs, no choice being open to it: down
    from above the lattice, right, down. *)
Definition wrapped_walk : walker :=
  Walker [ [2; 4]; [4; 0] ] [1; 1; 1]%nat
         [Some (-1); Some 0; Some 0; Some 1] [Some 0; Some 0; Some 1; Some 1] 3.

(** The walk [SAW(1, -1, 0)] constructs: down from above the lattice. *)
Definition wrapped_end : walker :=
  Walker [ [4] ] [1%nat] [Some (-1); Some 0] [Some 0; Some 0] 1.

(** A lattice with one marked cell. *)
Definition sample_grid : ndarray := [ [2; 0]; [0; 0] ].

(** The frame of [SAW(2)] with [first_source] after its first walk. *)
Definition sample_frame : frame :=
  Frame [ [2; 0]; [0; 0] ] [2%nat] [Some 0; Some 0] [Some 0; Some 1]
        (Some (0, 1)) 1 (RngState 1 0).

(** A random source for [SAWEarly(4, 0, 1, 0.5)]: the first choice takes the
    second legal direction, the others the first; the third draw of
    [uniform] terminates the walk. *)
Definition second_source : random_source :=
  RandomSource (λ n, match n with O => 1 | _ => 0 end%nat)
               (λ n, match n with 2%nat => 0.25 | _ => 0.75 end%float).

(** The walk [SAWEarly(4, 0, 1, 0.5)] constructs with [second_source]:
    right, right, then the draw that ends it. *)
Definition cut_walk : walker :=
  Walker [ [0; 2; 2; 0]; [0; 0; 0; 0]; [0; 0; 0; 0]; [0; 0; 0; 0] ]
         [3; 2; 1]%nat [Some 0; Some 0; Some 0] [Some 1; Some 2; Some 3] 2.

(** The walk [SAWEarly(2, 0, 0, 1.0)] constructs with [first_source]. *)
Definition one_step_walk : walker :=
  Walker [ [2; 0]; [0; 0] ] [2%nat] [Some 0; Some 0] [Some 0; Some 1] 1.

(** The frame [SAW(2)] ends its evolution with, under [first_source]. *)
Definition sample_end : frame :=
  Frame [ [2; 4]; [0; 1] ] [2; 1; 1]%nat
        [Some 0; Some 0; Some 1; Some 1] [Some 0; Some 1; Some 1; Some 0]
        (Some (1, 0)) 3 (RngState 1 0).

(** ** The lattice: reading and writing *)

Section Lattice.
Context (N : nat) (m : ndarray).
Hypothesis Hwf : wf_grid N m.

Lemma wf_row r row : m !! r = Some row → length row = N.
Proof.
  destruct Hwf as [_ Hall]. intros Hr.
  rewrite Forall_lookup in Hall. exact (Hall _ _ Hr).
Qed.

Lemma np_index_in_bounds a :
  0 ≤ a < Z.of_nat N → np_index N a = Some (Z.to_nat a).
Proof. intros H. unfold np_index. rewrite bool_decide_eq_true_2; done. Qed.

Lemma np_index_Some a r : np_index N a = Some r → (r < N)%nat.
Proof.
  unfold np_index. repeat case_bool_decide; intros [= <-]; lia.
Qed.

Lemma np_index_too_large a : Z.of_nat N ≤ a → np_index N a = None.
Proof.
  intros H. unfold np_index.
  rewrite !bool_decide_eq_false_2; [done | lia | lia].
Qed.

Lemma cell_in_bounds p : in_bounds N p → is_Some (cell m p).
Proof.
  intros [H1 H2]. unfold cell.
  destruct Hwf as [Hlen _].
  destruct (lookup_lt_is_Some_2 m (Z.to_nat p.1)) as [row Hrow]; [lia |].
  rewrite Hrow. simpl. apply lookup_lt_is_Some_2.
  rewrite (wf_row _ _ Hrow). lia.
Qed.

Lemma getitem_in_bounds p v :
  in_bounds N p → cell m p = Some v → getitem m p = Ok v.
Proof.
  intros [H1 H2]. unfold cell, getitem.
  destruct Hwf as [Hlen _]. rewrite Hlen, np_index_in_bounds by done.
  destruct (m !! Z.to_nat p.1) as [row |] eqn:Hrow; [simpl | done].
  rewrite (wf_row _ _ Hrow), np_index_in_bounds by done.
  by intros ->.
Qed.

Lemma getitem_too_large p :
  Z.of_nat N ≤ p.1 ∨ Z.of_nat N ≤ p.2 → getitem m p = Err IndexError.
Proof.
  intros H. unfold getitem. destruct Hwf as [Hlen _]. rewrite Hlen.
  destruct (np_index N p.1) as [r |] eqn:Hr; [| done].
  destruct (m !! r) as [row |] eqn:Hrow; [| done].
  rewrite (wf_row _ _ Hrow).
  destruct H as [H | H].
  - by rewrite np_index_too_large in Hr.
  - by rewrite np_index_too_large.
Qed.

(** The verdict of the [try] block of [_check_walks] on one target. *)
Lemma impossible_legal p : SAW.impossible m p = false ↔ legal N m p.
Proof.
  unfold SAW.impossible, legal. split.
  - destruct (decide (in_bounds N p)) as [Hin | Hout].
    + destruct (cell_in_bounds p Hin) as [v Hv].
      rewrite (getitem_in_bounds p v Hin Hv), Hv.
      destruct Hin as [H1 H2]. intros H.
      apply orb_false_elim in H as [H _].
      apply orb_false_elim in H as [H _].
      apply negb_false_iff, Z.eqb_eq in H. subst v. done.
    + unfold in_bounds in Hout.
      destruct (decide (Z.of_nat N ≤ p.1 ∨ Z.of_nat N ≤ p.2)) as [Hbig | Hsmall].
      * by rewrite getitem_too_large.
      * destruct (getitem m p); [| done].
        intros H. apply orb_false_elim in H as [H H2].
        apply orb_false_elim in H as [_ H1].
        apply Z.ltb_ge in H1, H2. lia.
  - intros [Hin Hv]. rewrite (getitem_in_bounds p 0 Hin Hv).
    destruct Hin as [H1 H2]. simpl.
    apply orb_false_intro; [| apply Z.ltb_ge; lia].
    apply Z.ltb_ge. lia.
Qed.

(** What [matrix[i, j] = v] does: it writes the cell at the normalised
    index, which is [p] itself when [p] is a position of the lattice, and
    leaves every other cell and the shape as they were. *)
Lemma setitem_effect p v m' :
  setitem m p v = Ok m' →
  wf_grid N m' ∧
  ∃ p', in_bounds N p' ∧ (in_bounds N p → p' = p) ∧
        cell m' p' = Some v ∧
        ∀ q, in_bounds N q → q ≠ p' → cell m' q = cell m q.
Proof.
  unfold setitem. destruct Hwf as [Hlen Hall]. rewrite Hlen.
  destruct (np_index N p.1) as [r |] eqn:Hr; [| done].
  destruct (m !! r) as [row |] eqn:Hrow; [| done].
  rewrite (wf_row _ _ Hrow).
  destruct (np_index N p.2) as [c |] eqn:Hc; [| done].
  intros [= <-].
  pose proof (np_index_Some _ _ Hr) as Hr'.
  pose proof (np_index_Some _ _ Hc) as Hc'.
  pose proof (wf_row _ _ Hrow) as Hrowlen.
  split.
  - split; [by rewrite length_insert |].
    apply Forall_insert; [done |]. by rewrite length_insert.
  - exists (Z.of_nat r, Z.of_nat c). split; [| split; [| split]].
    + unfold in_bounds. simpl. lia.
    + intros [H1 H2]. rewrite np_index_in_bounds in Hr, Hc by done.
      destruct p as [a b]. simpl in *. f_equal; [injection Hr | injection Hc]; lia.
    + unfold cell. simpl. rewrite !Nat2Z.id.
      rewrite list_lookup_insert_eq by lia. simpl.
      rewrite list_lookup_insert_eq by lia. done.
    + intros [a b] [H1 H2] Hne. unfold cell. simpl in *.
      destruct (decide (Z.to_nat a = r)) as [Hra | Hra].
      * rewrite Hra, list_lookup_insert_eq by lia. rewrite Hrow. simpl.
        rewrite list_lookup_insert_ne; [done |].
        intros Hcb. apply Hne. f_equal; lia.
      * by rewrite list_lookup_insert_ne.
Qed.

Lemma setitem_in_bounds p v : in_bounds N p → is_Some (cell m p) →
  ∃ m', setitem m p v = Ok m'.
Proof.
  intros [H1 H2] _. unfold setitem. destruct Hwf as [Hlen _].
  rewrite Hlen, np_index_in_bounds by done.
  destruct (lookup_lt_is_Some_2 m (Z.to_nat p.1)) as [row Hrow]; [lia |].
  rewrite Hrow, (wf_row _ _ Hrow), np_index_in_bounds by done. eauto.
Qed.

End Lattice.

Lemma zeros_wf N : wf_grid N (zeros N).
Proof.
  unfold zeros. split; [apply length_replicate |].
  apply Forall_replicate, length_replicate.
Qed.

Lemma zeros_cell N p : in_bounds N p → cell (zeros N) p = Some 0.
Proof.
  intros [H1 H2]. unfold cell, zeros.
  rewrite lookup_replicate_2 by lia. simpl.
  by rewrite lookup_replicate_2 by lia.
Qed.

(** ** Move enumeration *)

(** Popping the impossible keys leaves the entries that passed the test,
    in the order of insertion. *)
Lemma check_walks_filter m i j :
  SAW._check_walks m i j =
  let l := filter (λ e : Z * pos, SAW.impossible m e.2 = false)
                  (SAW.possible_walks_dict i j) in
  (l.*1, l.*2).
Proof.
  unfold SAW._check_walks, SAW.possible_walks_dict.
  rewrite !filter_cons, !filter_nil. simpl.
  destruct (SAW.impossible m (i, j - 1)), (SAW.impossible m (i, j + 1)),
    (SAW.impossible m (i - 1, j)), (SAW.impossible m (i + 1, j));
    reflexivity.
Qed.

Lemma possible_walks_dict_directions i j :
  SAW.possible_walks_dict i j = (λ d, (d, target (i, j) d)) <$> directions.
Proof. reflexivity. Qed.

Lemma filter_fmap_pre {A B : Type} (f : A → B) (P : B → Prop)
    `{!∀ y, Decision (P y)} (l : list A) :
  filter P (f <$> l) = f <$> filter (λ x, P (f x)) l.
Proof.
  induction l as [| a l IH]; [done |].
  rewrite fmap_cons, !filter_cons, IH. by case_decide.
Qed.

Lemma check_walks_legal N m i j :
  wf_grid N m →
  SAW._check_walks m i j =
  (legal_directions N m (i, j), target (i, j) <$> legal_directions N m (i, j)).
Proof.
  intros Hwf. rewrite check_walks_filter, possible_walks_dict_directions.
  cbv zeta. rewrite filter_fmap_pre.
  rewrite (list_filter_iff _ (λ d, legal N m (target (i, j) d))).
  2:{ intros d. simpl. by apply impossible_legal. }
  fold (legal_directions N m (i, j)).
  rewrite <- !list_fmap_compose. f_equal.
  apply list_fmap_id.
Qed.

Lemma elem_of_legal_directions N m p d :
  d ∈ legal_directions N m p ↔ d ∈ directions ∧ legal N m (target p d).
Proof. unfold legal_directions. rewrite list_elem_of_filter. tauto. Qed.

Lemma elem_of_directions d : d ∈ directions ↔ d = 1 ∨ d = 2 ∨ d = 3 ∨ d = 4.
Proof.
  unfold directions. rewrite !elem_of_cons, elem_of_nil. tauto.
Qed.

Lemma target_adjacent p d : target p d ≠ p.
Proof.
  destruct p as [a b]. unfold target. simpl.
  repeat case_decide; intros [=]; lia.
Qed.

(** ** Counting the free cells *)

Lemma length_cells N : length (cells N) = (N * N)%nat.
Proof.
  unfold cells. rewrite length_prod, length_seqZ. lia.
Qed.

Lemma elem_of_cells N q : q ∈ cells N ↔ in_bounds N q.
Proof.
  destruct q as [a b]. unfold cells, in_bounds.
  rewrite list_elem_of_In, in_prod_iff, <- !list_elem_of_In, !elem_of_seqZ.
  simpl. lia.
Qed.

Lemma NoDup_list_prod {A B : Type} (l : list A) (k : list B) :
  NoDup l → NoDup k → NoDup (list_prod l k).
Proof.
  intros Hl Hk. induction Hl as [| a l Hnotin Hl IH]; simpl; [constructor |].
  apply NoDup_app. split_and!.
  - change (map (λ y : B, (a, y)) k) with ((λ y : B, (a, y)) <$> k).
    apply NoDup_fmap_2; [| done]. by intros x y [= ->].
  - intros [a' b] Hin1 Hin2.
    apply list_elem_of_In, in_map_iff in Hin1 as (y & [= <- <-] & _).
    apply list_elem_of_In, in_prod_iff in Hin2 as [Hin2 _].
    by apply Hnotin, list_elem_of_In.
  - done.
Qed.

Lemma NoDup_cells N : NoDup (cells N).
Proof. apply NoDup_list_prod; apply NoDup_seqZ. Qed.

Lemma length_filter_iff {A : Type} (P Q : A → Prop)
    `{!∀ x, Decision (P x)} `{!∀ x, Decision (Q x)} (l : list A) :
  (∀ y, y ∈ l → P y ↔ Q y) → length (filter P l) = length (filter Q l).
Proof.
  induction l as [| a l IH]; intros Hiff; [done |].
  rewrite !filter_cons.
  pose proof (Hiff a (list_elem_of_here a l)) as Ha.
  assert (length (filter P l) = length (filter Q l)) as Hl.
  { apply IH. intros y Hy. apply Hiff. by apply list_elem_of_further. }
  repeat case_decide; simpl; try tauto; by rewrite Hl.
Qed.

(** Marking one free cell takes one from the count. *)
Lemma length_filter_remove {A : Type} (P Q : A → Prop)
    `{!∀ x, Decision (P x)} `{!∀ x, Decision (Q x)} (l : list A) (x : A) :
  NoDup l → x ∈ l → P x → ¬ Q x →
  (∀ y, y ∈ l → y ≠ x → P y ↔ Q y) →
  length (filter P l) = S (length (filter Q l)).
Proof.
  intros Hnodup. induction Hnodup as [| a l Hnotin Hnodup IH];
    intros Hx HP HQ Hiff; [by apply elem_of_nil in Hx |].
  rewrite !filter_cons.
  apply elem_of_cons in Hx as [-> | Hx].
  - rewrite decide_True, decide_False by done. simpl. f_equal.
    apply length_filter_iff. intros y Hy. apply Hiff.
    + by apply list_elem_of_further.
    + intros ->. done.
  - assert (a ≠ x) as Hne by (intros ->; done).
    assert (length (filter P l) = S (length (filter Q l))) as Hl.
    { apply IH; try done. intros y Hy. apply Hiff. by apply list_elem_of_further. }
    pose proof (Hiff a (list_elem_of_here a l) Hne) as Ha.
    repeat case_decide; simpl; try tauto; by rewrite Hl.
Qed.

Lemma free_cells_zeros N : free_cells N (zeros N) = (N * N)%nat.
Proof.
  unfold free_cells. rewrite <- (length_cells N).
  rewrite (length_filter_iff _ (λ _, True)).
  - f_equal. induction (cells N) as [| a l IH]; [done |].
    rewrite filter_cons. simpl. by rewrite IH.
  - intros q Hq. apply elem_of_cells in Hq. split; [done |].
    intros _. by apply zeros_cell.
Qed.

Lemma free_cells_mark N m m' p d :
  in_bounds N p → d ≠ 0 →
  cell m p = Some 0 → cell m' p = Some d →
  (∀ q, in_bounds N q → q ≠ p → cell m' q = cell m q) →
  free_cells N m = S (free_cells N m').
Proof.
  intros Hin Hd Hm Hm' Hother. unfold free_cells.
  apply (length_filter_remove _ _ _ p).
  - apply NoDup_cells.
  - by apply elem_of_cells.
  - done.
  - rewrite Hm'. by intros [= ?].
  - intros q Hq Hne. apply elem_of_cells in Hq. by rewrite (Hother q Hq Hne).
Qed.

(** ** One step *)

Lemma choose_uniformly_elem {A : Type} R g (l : list A) v g' :
  SAW._choose_uniformly R g l = Ok (v, g') → v ∈ l.
Proof.
  unfold SAW._choose_uniformly.
  destruct (if decide (1 < length l)%nat then randint R g (length l) else (0%nat, g))
    as [index g0].
  destruct (l !! index) as [v0 |] eqn:Hl; [| done].
  intros [= <- <-]. by eapply list_elem_of_lookup_2.
Qed.

Lemma choose_uniformly_nonempty {A : Type} R g (l : list A) :
  l ≠ [] → ∃ v g', SAW._choose_uniformly R g l = Ok (v, g').
Proof.
  intros Hl. unfold SAW._choose_uniformly.
  assert (∃ index g0,
    (if decide (1 < length l)%nat then randint R g (length l) else (0%nat, g))
      = (index, g0) ∧ (index < length l)%nat) as (index & g0 & -> & Hlt).
  { case_decide.
    - unfold randint. eexists _, _. split; [done |].
      apply Nat.mod_upper_bound. lia.
    - exists 0%nat, g. split; [done |]. destruct l; [done | simpl; lia]. }
  destruct (lookup_lt_is_Some_2 l index Hlt) as [v Hv].
  rewrite Hv. eauto.
Qed.

Lemma choose_uniformly_empty {A : Type} R g :
  SAW._choose_uniformly (A := A) R g [] = Err IndexError.
Proof. reflexivity. Qed.

(** [_walk] in a direction of 1..4: unless it stands on row or column N, it
    writes the code at [(i, j)] and returns the target. *)
Lemma walk_Some m i j d m' t :
  d ∈ directions →
  SAW._walk m i j d = Ok (m', Some t) →
  setitem m (i, j) d = Ok m' ∧ t = target (i, j) d.
Proof.
  intros Hd. apply elem_of_directions in Hd.
  unfold SAW._walk, target. simpl.
  case_decide as Hedge; [done |].
  repeat case_decide; try lia;
    (destruct (setitem m (i, j) d) as [m0 |]; simpl; [| done]);
    by intros [= <- <-].
Qed.

Lemma walk_None m i j d m' :
  d ∈ directions →
  SAW._walk m i j d = Ok (m', None) →
  m' = m ∧ (i = Z.of_nat (length m) ∨ j = Z.of_nat (length m)).
Proof.
  intros Hd. apply elem_of_directions in Hd.
  unfold SAW._walk.
  case_decide as Hedge; [by intros [= <-] |].
  repeat case_decide; try lia;
    by (destruct (setitem m (i, j) d) as [m0 |]; simpl).
Qed.

Lemma walk_in_bounds N m p d :
  wf_grid N m → in_bounds N p → d ∈ directions →
  ∃ m', SAW._walk m p.1 p.2 d = Ok (m', Some (target p d)).
Proof.
  intros Hwf Hin Hd.
  destruct (setitem_in_bounds N m Hwf p d Hin (cell_in_bounds N m Hwf p Hin))
    as [m' Hm'].
  exists m'. apply elem_of_directions in Hd.
  destruct Hwf as [Hlen _]. destruct Hin as [H1 H2].
  unfold SAW._walk, target. rewrite Hlen.
  destruct p as [i j]. simpl in *.
  case_decide as Hedge; [lia |].
  repeat case_decide; try lia; by rewrite Hm'.
Qed.

(** The frame a successful [take_step] leaves. *)
Lemma take_step_Ok R i j pw f f' :
  SAW.take_step R i j pw f = Ok f' →
  ∃ d g m' ij,
    d ∈ pw ∧ SAW._walk (f_grid f) i j d = Ok (m', ij) ∧
    f' = Frame m' (f_k f) (f_x f ++ [fst <$> ij]) (f_y f ++ [snd <$> ij])
               ij (f_n_steps f + 1) g.
Proof.
  unfold SAW.take_step.
  destruct (SAW._choose_uniformly R (f_rng f) pw) as [[d g] |] eqn:Hch;
    simpl; [| done].
  destruct (SAW._walk (f_grid f) i j d) as [[m' ij] |] eqn:Hw;
    simpl; [| done].
  intros [= <-]. exists d, g, m', ij. split; [| done].
  by eapply choose_uniformly_elem.
Qed.

Lemma take_step_empty R i j f :
  SAW.take_step R i j [] f = Err IndexError.
Proof. reflexivity. Qed.

Lemma at_pos_inj q q' : at_pos q = at_pos q' → q = q'.
Proof. destruct q, q'. unfold at_pos. simpl. by intros [= -> ->]. Qed.

Lemma trajectory_snoc (xs ys : list (option Z)) a b :
  length xs = length ys →
  zip (xs ++ [a]) (ys ++ [b]) = zip xs ys ++ [(a, b)].
Proof. intros Hlen. by rewrite zip_with_app. Qed.

(** A step taken from a position [p] of the lattice. *)
Lemma take_step_on_lattice N R f f0 f' p :
  wf_grid N (f_grid f) → in_bounds N p → same_walk f f0 →
  SAW.take_step R p.1 p.2 (legal_directions N (f_grid f) p) f0 = Ok f' →
  ∃ d, d ∈ directions ∧ legal N (f_grid f) (target p d) ∧
       wf_grid N (f_grid f') ∧
       cell (f_grid f') p = Some d ∧
       (∀ q, in_bounds N q → q ≠ p → cell (f_grid f') q = cell (f_grid f) q) ∧
       f_x f' = f_x f ++ [Some (target p d).1] ∧
       f_y f' = f_y f ++ [Some (target p d).2] ∧
       f_ij f' = Some (target p d) ∧
       f_n_steps f' = S (f_n_steps f) ∧
       f_k f' = f_k f0.
Proof.
  intros Hwf Hin (Hg & Hx & Hy & Hij & Hn) Hstep.
  apply take_step_Ok in Hstep as (d & g & m' & ij & Hd & Hwalk & ->).
  apply elem_of_legal_directions in Hd as [Hd Hlegal].
  rewrite Hg in Hwalk.
  destruct (walk_in_bounds N (f_grid f) p d Hwf Hin Hd) as [m'' Hwalk'].
  rewrite Hwalk' in Hwalk. injection Hwalk as <- <-.
  destruct p as [i j].
  apply walk_Some in Hwalk' as [Hset _]; [| done].
  apply (setitem_effect N _ Hwf) in Hset as (Hwf' & p' & _ & Hp' & Hcell & Hother).
  rewrite (Hp' Hin) in Hcell, Hother.
  exists d. simpl in *. rewrite Hx, Hy, Hn.
  split_and!; try done. lia.
Qed.

(** The step keeps the walk self-avoiding. *)
Lemma take_step_walking N R f f0 f' p :
  walking N f → same_walk f f0 → f_ij f = Some p →
  SAW.take_step R p.1 p.2 (legal_directions N (f_grid f) p) f0 = Ok f' →
  walking N f'.
Proof.
  intros [Hwf Hlen Hnodup Hhere Hmarked Hsteps] Hsame Hij Hstep.
  destruct Hhere as (p1 & Hp1 & Hin & Hlast).
  rewrite Hij in Hp1. injection Hp1 as <-.
  destruct (take_step_on_lattice N R f f0 f' p Hwf Hin Hsame Hstep)
    as (d & Hd & [Htin Htcell] & Hwf' & Hcell & Hother & Hx & Hy & Hij' & Hn & _).
  assert (f_trajectory f' = f_trajectory f ++ [at_pos (target p d)]) as Htraj.
  { unfold f_trajectory. rewrite Hx, Hy. by apply trajectory_snoc. }
  assert (at_pos (target p d) ∉ f_trajectory f) as Hfresh.
  { intros Hel.
    apply (Hmarked p (target p d) Hij Htin Hel); [apply target_adjacent | done]. }
  split.
  - done.
  - rewrite Hx, Hy, !length_app. simpl. lia.
  - rewrite Htraj. apply NoDup_app. split; [done |]. split.
    + intros e He Hin'. apply list_elem_of_singleton in Hin'. by subst e.
    + apply NoDup_singleton.
  - exists (target p d). rewrite Htraj, last_snoc. done.
  - intros p2 q Hp2 Hq Hel Hne. rewrite Hij' in Hp2. injection Hp2 as <-.
    rewrite Htraj in Hel. apply elem_of_app in Hel as [Hel | Hel].
    + destruct (decide (q = p)) as [-> | Hqp].
      * rewrite Hcell. apply elem_of_directions in Hd. intros [= ->]. lia.
      * rewrite (Hother q Hq Hqp). by eapply Hmarked.
    + apply list_elem_of_singleton, at_pos_inj in Hel. done.
  - destruct Hsteps as (p0 & tl & Htl & Hall & Hlen').
    exists p0, (tl ++ [at_pos (target p d)]). split; [| split].
    + by rewrite Htraj, Htl.
    + apply Forall_app. split; [done |].
      apply Forall_singleton. by exists (target p d).
    + rewrite Hn, Hlen', length_app. simpl. lia.
Qed.

(** With the walk started on the lattice, the step is a departure and keeps
    the tags right. *)
Lemma take_step_tagged N R f f0 f' p :
  walking N f → tagged N f → same_walk f f0 → f_ij f = Some p →
  SAW.take_step R p.1 p.2 (legal_directions N (f_grid f) p) f0 = Ok f' →
  tagged N f' ∧ departs N f f'.
Proof.
  intros [Hwf Hlen Hnodup Hhere Hmarked Hsteps] [Hall Hzero Honly Hcode Hfree]
    Hsame Hij Hstep.
  destruct Hhere as (p1 & Hp1 & Hin & Hlast).
  rewrite Hij in Hp1. injection Hp1 as <-.
  destruct (take_step_on_lattice N R f f0 f' p Hwf Hin Hsame Hstep)
    as (d & Hd & [Htin Htcell] & Hwf' & Hcell & Hother & Hx & Hy & Hij' & Hn & _).
  assert (f_trajectory f' = f_trajectory f ++ [at_pos (target p d)]) as Htraj.
  { unfold f_trajectory. rewrite Hx, Hy. by apply trajectory_snoc. }
  pose proof (target_adjacent p d) as Hadj.
  split.
  - split.
    + rewrite Htraj. apply Forall_app. split; [done |].
      apply Forall_singleton. by exists (target p d).
    + intros p2 Hp2. rewrite Hij' in Hp2. injection Hp2 as <-.
      by rewrite (Hother _ Htin Hadj).
    + intros q Hq Hne. rewrite Htraj. apply elem_of_app. left.
      destruct (decide (q = p)) as [-> | Hqp].
      * apply last_Some_elem_of. done.
      * apply Honly; [done |]. by rewrite <- (Hother q Hq Hqp).
    + intros t q q' Ht HSt. rewrite Htraj in Ht, HSt.
      apply last_Some in Hlast as [l' Hl'].
      destruct (decide (S t < length (f_trajectory f))%nat) as [Hlt | Hge].
      * rewrite lookup_app_l in Ht by lia. rewrite lookup_app_l in HSt by lia.
        destruct (Hcode t q q' Ht HSt) as (d' & Hd' & Hc' & Hq').
        exists d'. split; [done |]. split; [| done].
        rewrite Hother; [done | |].
        -- apply list_elem_of_lookup_2 in Ht.
           rewrite Forall_forall in Hall.
           destruct (Hall _ Ht) as (q0 & Hq0 & Heq).
           apply at_pos_inj in Heq. by subst q0.
        -- intros ->. rewrite Hl' in Ht, Hnodup, Hlt.
           rewrite length_app in Hlt. simpl in Hlt.
           rewrite lookup_app_l in Ht by lia.
           apply list_elem_of_lookup_2 in Ht.
           apply NoDup_app in Hnodup as (_ & Hdisj & _).
           apply (Hdisj _ Ht). by apply list_elem_of_singleton.
      * assert (S t < length (f_trajectory f ++ [at_pos (target p d)]))%nat as Hlt.
        { by apply lookup_lt_Some in HSt. }
        rewrite length_app in Hlt. simpl in Hlt.
        assert (S t = length (f_trajectory f)) as HSt' by lia.
        rewrite lookup_app_r in HSt by lia.
        rewrite HSt', Nat.sub_diag in HSt. simpl in HSt.
        apply (inj Some), at_pos_inj in HSt. subst q'.
        rewrite lookup_app_l in Ht by lia.
        rewrite Hl', length_app in HSt'. simpl in HSt'.
        rewrite Hl' in Ht. rewrite lookup_app_r in Ht by lia.
        replace (t - length l')%nat with 0%nat in Ht by lia. simpl in Ht.
        apply (inj Some), at_pos_inj in Ht. subst q.
        exists d. done.
    + assert (d ≠ 0) as Hd0 by (apply elem_of_directions in Hd; lia).
      rewrite (free_cells_mark N (f_grid f) (f_grid f') p d) in Hfree by auto.
      lia.
  - exists p, d. rewrite Hzero by done. split_and!; done.
Qed.

(** ** The loops *)

Lemma same_walk_refl f : same_walk f f.
Proof. by repeat split. Qed.

(** From a position of the lattice with a legal direction, [take_step]
    succeeds. *)
Lemma take_step_progress N R f f0 p :
  wf_grid N (f_grid f) → in_bounds N p → same_walk f f0 →
  legal_directions N (f_grid f) p ≠ [] →
  ∃ f', SAW.take_step R p.1 p.2 (legal_directions N (f_grid f) p) f0 = Ok f'.
Proof.
  intros Hwf Hin (Hg & _) Hne. unfold SAW.take_step.
  destruct (choose_uniformly_nonempty R (f_rng f0) _ Hne) as (d & g & Hch).
  rewrite Hch. simpl.
  apply choose_uniformly_elem, elem_of_legal_directions in Hch as [Hd _].
  destruct (walk_in_bounds N (f_grid f) p d Hwf Hin Hd) as [m' Hwalk].
  rewrite Hg, Hwalk. simpl. eauto.
Qed.

Lemma length_zero_nil {A : Type} (l : list A) : length l = 0%nat ↔ l = [].
Proof. destruct l; simpl; split; intros; done. Qed.

(** The turn that follows the test of the early termination, the same in
    both loops: stop and pop when no direction is legal, step otherwise. *)
Lemma turn_walk_body N R f f0 p :
  wf_grid N (f_grid f) →
  let l := legal_directions N (f_grid f) p in
  same_walk f f0 → f_k f0 = f_k f ++ [length l] →
  let turn :=
    if decide (length l = 0%nat) then Ok (true, SAW.log_pop f0)
    else f' ← SAW.take_step R p.1 p.2 l f0; Ok (false, f') in
  (∀ f', turn = Ok (false, f') →
     length l ≠ 0%nat ∧ SAW.take_step R p.1 p.2 l f0 = Ok f') ∧
  (∀ f', turn = Ok (true, f') → same_walk f f' ∧ f_k f' = f_k f) ∧
  (in_bounds N p → ∀ e, turn ≠ Err e).
Proof.
  intros Hwf l Hsame Hk turn. unfold turn. case_decide as Hn.
  - split_and!; [intros ? ?; discriminate | | intros ? ? ?; discriminate].
    intros f' [= <-]. destruct Hsame as (Hg & Hx & Hy & Hij & Hsteps).
    split; [by repeat split |]. simpl. rewrite Hk. apply removelast_last.
  - destruct (SAW.take_step R p.1 p.2 l f0) as [f1 | e1] eqn:Hstep; simpl.
    + split_and!; [| intros ? ?; discriminate | intros ? ? ?; discriminate].
      by intros f' [= <-].
    + split_and!; [intros ? ?; discriminate | intros ? ?; discriminate |].
      intros Hin e _.
      destruct (take_step_progress N R f f0 p Hwf Hin Hsame) as [f2 Hf2].
      * intros Hnil. apply Hn. unfold l. by rewrite Hnil.
      * fold l in Hf2. congruence.
Qed.

Lemma base_walk_body N R : walk_body N R (SAW.loop_body R).
Proof.
  intros f p Hwf Hij n. unfold SAW.loop_body. rewrite Hij.
  destruct p as [i j].
  rewrite (check_walks_legal N _ i j Hwf). fold n.
  destruct (turn_walk_body N R f (SAW.log_append n f) (i, j) Hwf
              (same_walk_refl f) eq_refl) as (Hcont & Hbreak & Herr).
  cbn [fst snd] in Hcont, Hbreak, Herr. fold n in Hcont, Hbreak, Herr.
  split_and!.
  - intros f' Hf'. destruct (Hcont f' Hf') as [Hn Hstep].
    split; [done |]. exists (SAW.log_append n f).
    split; [by repeat split |]. done.
  - intros f' Hf'. destruct (Hbreak f' Hf') as [Hsame Hk]. by split; [| left].
  - done.
Qed.

Lemma early_walk_body N tp R : walk_body N R (SAWEarly.loop_body tp R).
Proof.
  intros f p Hwf Hij n. unfold SAWEarly.loop_body. rewrite Hij.
  destruct p as [i j].
  rewrite (check_walks_legal N _ i j Hwf). fold n.
  destruct (uniform R (f_rng (SAW.log_append n f))) as [u g].
  set (f0 := Frame (f_grid (SAW.log_append n f)) (f_k (SAW.log_append n f))
               (f_x (SAW.log_append n f)) (f_y (SAW.log_append n f))
               (f_ij (SAW.log_append n f)) (f_n_steps (SAW.log_append n f)) g).
  assert (same_walk f f0) as Hsame by (by repeat split).
  destruct (u <? tp)%float.
  - split_and!; [intros ? ?; discriminate | | intros ? ? ?; discriminate].
    intros f' [= <-]. case_decide as Hn.
    + split; [by repeat split |]. left. simpl. apply removelast_last.
    + split; [by repeat split |]. right. done.
  - destruct (turn_walk_body N R f f0 (i, j) Hwf Hsame eq_refl)
      as (Hcont & Hbreak & Herr).
    cbn [fst snd] in Hcont, Hbreak, Herr. fold n in Hcont, Hbreak, Herr.
    split_and!.
    + intros f' Hf'. destruct (Hcont f' Hf') as [Hn Hstep].
      split; [done |]. by exists f0.
    + intros f' Hf'. destruct (Hbreak f' Hf') as [Hsame' Hk]. by split; [| left].
    + done.
Qed.

Section Loop.
Context (N : nat) (R : random_source) (body : frame → result (bool * frame)).
Hypothesis Hbody : walk_body N R body.

Lemma body_walking f colide f' :
  walking N f → body f = Ok (colide, f') → walking N f'.
Proof.
  intros Hw Hstep.
  destruct (walking_here N f Hw) as (p & Hij & Hin & Hlast).
  destruct (Hbody f p (walking_wf N f Hw) Hij) as (Hcont & Hbreak & _).
  destruct colide.
  - destruct (Hbreak f' Hstep) as [(Hg & Hx & Hy & Hij' & Hn) _].
    destruct Hw as [Hwf Hlen Hnodup Hhere Hmarked Hsteps].
    split; unfold f_trajectory in *; rewrite ?Hg, ?Hx, ?Hy, ?Hij', ?Hn; done.
  - destruct (Hcont f' Hstep) as (_ & f0 & Hsame & _ & Htake).
    by eapply take_step_walking.
Qed.

Lemma body_tagged f colide f' :
  walking N f → tagged N f → body f = Ok (colide, f') → tagged N f'.
Proof.
  intros Hw Ht Hstep.
  destruct (walking_here N f Hw) as (p & Hij & Hin & Hlast).
  destruct (Hbody f p (walking_wf N f Hw) Hij) as (Hcont & Hbreak & _).
  destruct colide.
  - destruct (Hbreak f' Hstep) as [(Hg & Hx & Hy & Hij' & Hn) _].
    destruct Ht as [Hall Hzero Honly Hcode Hfree].
    split; unfold f_trajectory in *; rewrite ?Hg, ?Hx, ?Hy, ?Hij', ?Hn; done.
  - destruct (Hcont f' Hstep) as (_ & f0 & Hsame & _ & Htake).
    by eapply take_step_tagged.
Qed.

Lemma body_departs f f' :
  walking N f → tagged N f → body f = Ok (false, f') → departs N f f'.
Proof.
  intros Hw Ht Hstep.
  destruct (walking_here N f Hw) as (p & Hij & Hin & Hlast).
  destruct (Hbody f p (walking_wf N f Hw) Hij) as (Hcont & _ & _).
  destruct (Hcont f' Hstep) as (_ & f0 & Hsame & _ & Htake).
  by eapply take_step_tagged.
Qed.

Lemma during_walking f1 f : walking N f1 → during body f1 f → walking N f.
Proof.
  intros H1 Hd. induction Hd as [| f colide f' _ IH Hstep]; [done |].
  by eapply body_walking.
Qed.

Lemma during_tagged f1 f :
  walking N f1 → tagged N f1 → during body f1 f → tagged N f.
Proof.
  intros H1 Ht Hd. induction Hd as [| f colide f' Hd IH Hstep]; [done |].
  eapply body_tagged; [| done | done]. by eapply during_walking.
Qed.

Lemma body_log f colide f' :
  walking N f → log_ok (f_k f) → body f = Ok (colide, f') → log_ok (f_k f').
Proof.
  intros Hw Hlog Hstep.
  destruct (walking_here N f Hw) as (p & Hij & Hin & Hlast).
  destruct (Hbody f p (walking_wf N f Hw) Hij) as (Hcont & Hbreak & _).
  assert (length (legal_directions N (f_grid f) p) ≤ 4)%nat as Hle.
  { unfold legal_directions. apply (length_filter _ directions). }
  destruct colide.
  - destruct (Hbreak f' Hstep) as [_ [-> | [Hn ->]]]; [done |].
    apply Forall_app. split; [done |]. apply Forall_singleton. lia.
  - destruct (Hcont f' Hstep) as (Hn & f0 & _ & Hk & Htake).
    apply take_step_Ok in Htake as (d & g & m' & ij & _ & _ & ->). simpl.
    rewrite Hk. apply Forall_app. split; [done |].
    apply Forall_singleton. lia.
Qed.

Lemma during_log f1 f :
  walking N f1 → log_ok (f_k f1) → during body f1 f → log_ok (f_k f).
Proof.
  intros H1 Hlog Hd. induction Hd as [| f colide f' Hd IH Hstep]; [done |].
  eapply body_log; [| done | done]. by eapply during_walking.
Qed.

Lemma body_steps f f' :
  walking N f → body f = Ok (false, f') → f_n_steps f' = S (f_n_steps f).
Proof.
  intros Hw Hstep.
  destruct (walking_here N f Hw) as (p & Hij & Hin & Hlast).
  destruct (Hbody f p (walking_wf N f Hw) Hij) as (Hcont & _ & _).
  destruct (Hcont f' Hstep) as (_ & f0 & (_ & _ & _ & _ & Hn) & _ & Htake).
  apply take_step_Ok in Htake as (d & g & m' & ij & _ & _ & ->). simpl.
  lia.
Qed.

End Loop.

(** The frame a loop ends with is one of those it went through. *)
Lemma while_during body fuel f1 r :
  while_not_colide body fuel f1 = Done r → during body f1 r.
Proof.
  intros Hrun.
  assert (∀ f, during body f1 f → while_not_colide body fuel f = Done r →
               during body f1 r) as Hgen.
  { clear Hrun. induction fuel as [| fuel IH]; intros f Hd; simpl; [done |].
    destruct (body f) as [[[] f'] |] eqn:Hb; [| | done].
    - intros [= <-]. eapply during_next; eauto.
    - apply IH. eapply during_next; eauto. }
  eapply Hgen; [apply during_first | done].
Qed.

(** ** The length of a walk *)

(** A walk takes at most N * N steps: the entries of the trajectory after
    the first are distinct positions of the lattice. *)
Lemma walking_bound N f : walking N f → (f_n_steps f ≤ N * N)%nat.
Proof.
  intros [_ _ Hnodup _ _ (p0 & tl & Htl & Hall & ->)].
  rewrite Htl in Hnodup. apply NoDup_cons in Hnodup as [_ Hnodup].
  rewrite <- (length_cells N), <- (length_fmap at_pos (cells N)).
  apply submseteq_length, NoDup_submseteq; [done |].
  intros e He. rewrite Forall_forall in Hall.
  destruct (Hall e He) as (q & Hq & ->).
  apply list_elem_of_fmap_2. by apply elem_of_cells.
Qed.

(** A loop entered by a walker that stands on the lattice ends, by a
    [break], within N * N turns. *)
Lemma loop_terminates N R body :
  walk_body N R body →
  ∀ n f, walking N f → (N * N - f_n_steps f < n)%nat →
  ∃ f', during body f f' ∧
        ∀ fuel, (n ≤ fuel)%nat → while_not_colide body fuel f = Done f'.
Proof.
  intros Hbody n. induction n as [| n IH]; intros f Hw Hn; [lia |].
  destruct (walking_here N f Hw) as (p & Hij & Hin & Hlast).
  destruct (Hbody f p (walking_wf N f Hw) Hij) as (_ & _ & Hthrow).
  destruct (body f) as [[[] f1] | e] eqn:Hb.
  - exists f1. split.
    + eapply during_next; [apply during_first | eauto].
    + intros [| fuel] Hfuel; [lia |]. simpl. by rewrite Hb.
  - assert (walking N f1) as Hw1 by (eapply body_walking; eauto).
    pose proof (body_steps N R body Hbody f f1 Hw Hb) as Hsteps.
    pose proof (walking_bound N f1 Hw1) as Hbound.
    destruct (IH f1 Hw1) as (f' & Hd & Hrun); [lia |].
    exists f'. split.
    + clear Hrun. induction Hd as [| f2 c f3 Hd IHd Hstep].
      * eapply during_next; [apply during_first | eauto].
      * eapply during_next; eauto.
    + intros [| fuel] Hfuel; [lia |]. simpl. rewrite Hb. apply Hrun. lia.
  - by destruct (Hthrow Hin e).
Qed.

(** ** The first walk *)

(** The first step, from the initial position on a lattice of zeros: either
    the walker now stands on the lattice, or it started on row or column N,
    [_walk] printed its error and returned [(None, None)]. *)
Lemma first_step N R x0 y0 f0 f :
  f_grid f0 = zeros N → f_x f0 = [Some x0] → f_y f0 = [Some y0] →
  f_n_steps f0 = 0%nat →
  SAW.take_step R x0 y0 (legal_directions N (zeros N) (x0, y0)) f0 = Ok f →
  f_k f = f_k f0 ∧
  ((walking N f ∧ (in_bounds N (x0, y0) → tagged N f)) ∨ stalled N x0 y0 f).
Proof.
  intros Hg Hx Hy Hn Hstep.
  apply take_step_Ok in Hstep as (d & g & m' & ij & Hd & Hwalk & ->).
  simpl. split; [done |].
  apply elem_of_legal_directions in Hd as [Hd [Htin Htcell]].
  rewrite Hg in Hwalk. rewrite Hx, Hy, Hn.
  pose proof (zeros_wf N) as Hwf.
  pose proof (target_adjacent (x0, y0) d) as Hadj.
  destruct ij as [t |].
  - left. apply walk_Some in Hwalk as [Hset ->]; [| done].
    apply (setitem_effect N _ Hwf) in Hset
      as (Hwf' & p' & Hp'in & Hp' & Hcell & Hother).
    assert (d ≠ 0) as Hd0.
    { apply elem_of_directions in Hd. lia. }
    set (t := target (x0, y0) d) in *.
    assert (∀ q, in_bounds N q → q ≠ p' → cell m' q = Some 0) as Hzero.
    { intros q Hq Hne. rewrite (Hother q Hq Hne). by apply zeros_cell. }
    split.
    + split; simpl.
      * done.
      * done.
      * unfold f_trajectory. simpl. fold (at_pos t).
        change (Some x0, Some y0) with (at_pos (x0, y0)).
        apply NoDup_cons. split; [| apply NoDup_singleton].
        rewrite list_elem_of_singleton. intros Heq.
        apply at_pos_inj in Heq. done.
      * exists t. done.
      * intros p q [= <-] Hq Hel Hne. unfold f_trajectory in Hel. simpl in Hel.
        fold (at_pos t) in Hel.
        change (Some x0, Some y0) with (at_pos (x0, y0)) in Hel.
        apply elem_of_cons in Hel as [Hel | Hel].
        -- apply at_pos_inj in Hel. subst q.
           rewrite <- (Hp' Hq), Hcell. by intros [= ?].
        -- apply list_elem_of_singleton, at_pos_inj in Hel. done.
      * exists (at_pos (x0, y0)), [at_pos t]. split; [done |]. split; [| done].
        apply Forall_singleton. by exists t.
    + intros Hin. specialize (Hp' Hin). subst p'. split; simpl.
      * unfold f_trajectory. simpl. apply Forall_cons. split.
        -- by exists (x0, y0).
        -- apply Forall_singleton. by exists t.
      * intros p [= <-]. apply Hzero; [done |]. done.
      * intros q Hq Hne. unfold f_trajectory. simpl.
        destruct (decide (q = (x0, y0))) as [-> | Hq0]; [apply list_elem_of_here |].
        destruct Hne. by apply Hzero.
      * intros n q q' Hq Hq'. unfold f_trajectory in Hq, Hq'. simpl in Hq, Hq'.
        destruct n as [| n]; [| by destruct n].
        simpl in Hq, Hq'.
        apply (inj Some) in Hq. apply (inj Some) in Hq'.
        change (Some x0, Some y0) with (at_pos (x0, y0)) in Hq.
        fold (at_pos t) in Hq'.
        apply at_pos_inj in Hq, Hq'. subst q q'.
        exists d. done.
      * rewrite <- (free_cells_zeros N).
        rewrite (free_cells_mark N (zeros N) m' (x0, y0) d); auto; [lia |].
        by apply zeros_cell.
  - right. apply walk_None in Hwalk as [-> Hedge]; [| done].
    destruct Hwf as [Hlen _]. rewrite Hlen in Hedge.
    unfold stalled. split_and!; try done.
    + unfold in_bounds. simpl. lia.
    + destruct Htin as [? _]. lia.
Qed.

(** The legal directions from a position of a lattice of zeros with N >= 2:
    up or down is one of them. *)
Lemma legal_directions_start N p :
  (2 ≤ N)%nat → in_bounds N p → legal_directions N (zeros N) p ≠ [].
Proof.
  intros HN [H1 H2] Hnil.
  destruct (decide (p.1 + 1 < Z.of_nat N)) as [Hdown | Hup].
  - assert (4 ∈ legal_directions N (zeros N) p) as Hel.
    { apply elem_of_legal_directions. split.
      - apply elem_of_directions. lia.
      - assert (in_bounds N (target p 4)) as Hin.
        { unfold target, in_bounds. simpl. lia. }
        split; [done |]. by apply zeros_cell. }
    rewrite Hnil in Hel. by apply elem_of_nil in Hel.
  - assert (3 ∈ legal_directions N (zeros N) p) as Hel.
    { apply elem_of_legal_directions. split.
      - apply elem_of_directions. lia.
      - assert (in_bounds N (target p 3)) as Hin.
        { unfold target, in_bounds. simpl. lia. }
        split; [done |]. by apply zeros_cell. }
    rewrite Hnil in Hel. by apply elem_of_nil in Hel.
Qed.

(** On a 1x1 lattice no direction is legal, wherever the walker stands on
    it. *)
Lemma legal_directions_1x1 m p :
  in_bounds 1 p → legal_directions 1 m p = [].
Proof.
  intros [H1 H2]. unfold legal_directions, directions.
  rewrite !filter_cons, filter_nil.
  repeat case_decide; try done;
    match goal with H : legal 1 _ _ |- _ => destruct H as [[? ?] _] end;
    unfold target in *; simpl in *; lia.
Qed.

Lemma length_legal_directions N m p :
  (length (legal_directions N m p) ≤ 4)%nat.
Proof. unfold legal_directions. apply (length_filter _ directions). Qed.

Lemma take_step_nonempty R i j pw f f' :
  SAW.take_step R i j pw f = Ok f' → (1 ≤ length pw)%nat.
Proof.
  intros Hstep. destruct pw; [| simpl; lia].
  by rewrite take_step_empty in Hstep.
Qed.

Lemma base_first_walk_eq N R x0 y0 g :
  SAW.first_walk R (SAW.fresh N x0 y0 g) =
  SAW.take_step R x0 y0 (legal_directions N (zeros N) (x0, y0))
    (Frame (zeros N) [length (legal_directions N (zeros N) (x0, y0))]
           [Some x0] [Some y0] None 0 g).
Proof.
  unfold SAW.first_walk.
  change (SAW.initial (SAW.fresh N x0 y0 g)) with (Ok (x0, y0)).
  change (f_grid (SAW.fresh N x0 y0 g)) with (zeros N).
  cbn [mbind result_bind].
  by rewrite (check_walks_legal N _ x0 y0 (zeros_wf N)).
Qed.

Lemma early_first_walk_eq N tp R x0 y0 g :
  SAWEarly.first_walk tp R (SAW.fresh N x0 y0 g) =
  f ← SAW.take_step R x0 y0 (legal_directions N (zeros N) (x0, y0))
        (Frame (zeros N) [length (legal_directions N (zeros N) (x0, y0))]
           [Some x0] [Some y0] None 0
           (RngState (randint_calls g) (S (uniform_calls g))));
  Ok ((uniform_draws R (uniform_calls g) <? tp)%float, f).
Proof.
  unfold SAWEarly.first_walk.
  change (SAW.initial (SAW.fresh N x0 y0 g)) with (Ok (x0, y0)).
  change (f_grid (SAW.fresh N x0 y0 g)) with (zeros N).
  cbn [mbind result_bind].
  by rewrite (check_walks_legal N _ x0 y0 (zeros_wf N)).
Qed.

Lemma base_first_walk N R x0 y0 g f :
  SAW.first_walk R (SAW.fresh N x0 y0 g) = Ok f →
  log_ok (f_k f) ∧
  ((walking N f ∧ (in_bounds N (x0, y0) → tagged N f)) ∨ stalled N x0 y0 f).
Proof.
  rewrite (base_first_walk_eq N). intros Hstep.
  pose proof (take_step_nonempty _ _ _ _ _ _ Hstep) as Hn.
  pose proof (length_legal_directions N (zeros N) (x0, y0)) as Hn'.
  apply (first_step N) in Hstep as [Hk Hf]; try done.
  split; [| done]. rewrite Hk. simpl.
  apply Forall_singleton. lia.
Qed.

Lemma early_first_walk N tp R x0 y0 g c f :
  SAWEarly.first_walk tp R (SAW.fresh N x0 y0 g) = Ok (c, f) →
  c = (uniform_draws R (uniform_calls g) <? tp)%float ∧
  log_ok (f_k f) ∧
  ((walking N f ∧ (in_bounds N (x0, y0) → tagged N f)) ∨ stalled N x0 y0 f).
Proof.
  rewrite (early_first_walk_eq N).
  match goal with |- context [SAW.take_step R x0 y0 ?l ?f0] =>
    destruct (SAW.take_step R x0 y0 l f0) as [f1 |] eqn:Hstep
  end; simpl; [| done].
  intros [= <- <-]. split; [done |].
  pose proof (take_step_nonempty _ _ _ _ _ _ Hstep) as Hn.
  pose proof (length_legal_directions N (zeros N) (x0, y0)) as Hn'.
  apply (first_step N) in Hstep as [Hk Hf]; try done.
  split; [| done]. rewrite Hk. simpl.
  apply Forall_singleton. lia.
Qed.

(** A loop entered after a stalled first step fails at once. *)
Lemma while_stalled body fuel f r :
  (∀ f, f_ij f = None → body f = Err TypeError) → f_ij f = None →
  while_not_colide body fuel f ≠ Done r.
Proof.
  intros Hbody Hij. destruct fuel as [| fuel]; simpl; [done |].
  by rewrite (Hbody f Hij).
Qed.

Lemma base_body_None R f : f_ij f = None → SAW.loop_body R f = Err TypeError.
Proof. intros Hij. unfold SAW.loop_body. by rewrite Hij. Qed.

Lemma early_body_None tp R f :
  f_ij f = None → SAWEarly.loop_body tp R f = Err TypeError.
Proof. intros Hij. unfold SAWEarly.loop_body. by rewrite Hij. Qed.

(** The frame behind a constructed walk. *)
Lemma constructs_frame N x0 y0 w :
  constructs N x0 y0 w →
  ∃ f, w = SAW.finish f ∧ log_ok (f_k f) ∧
       ((walking N f ∧ (in_bounds N (x0, y0) → tagged N f)) ∨ stalled N x0 y0 f).
Proof.
  intros [(fuel & R & Hrun) | (fuel & R & tp & Hrun)].
  - unfold SAW.__init__, SAW._evolution in Hrun.
    destruct (SAW.first_walk R (SAW.fresh N x0 y0 rng_start))
      as [f1 |] eqn:Hfirst; simpl in Hrun; [| done].
    destruct (while_not_colide (SAW.loop_body R) fuel f1)
      as [f | |] eqn:Hloop; simpl in Hrun; [| done | done].
    injection Hrun as <-. exists f. split; [done |].
    apply base_first_walk in Hfirst as [Hlog [[Hw Ht] | Hst]].
    + apply while_during in Hloop.
      pose proof (base_walk_body N R) as Hbody.
      split; [by eapply during_log |]. left. split.
      * by eapply during_walking.
      * intros Hin. eapply during_tagged; eauto.
    + destruct Hst as (_ & Hij & _).
      by destruct (while_stalled _ fuel f1 f (base_body_None R) Hij).
  - unfold SAWEarly.__init__, SAWEarly._evolution in Hrun.
    destruct (SAWEarly.first_walk tp R (SAW.fresh N x0 y0 rng_start))
      as [[c f1] |] eqn:Hfirst; simpl in Hrun; [| done].
    apply early_first_walk in Hfirst as (_ & Hlog & Hf1).
    destruct c.
    + simpl in Hrun. injection Hrun as <-. by exists f1.
    + destruct (while_not_colide (SAWEarly.loop_body tp R) fuel f1)
        as [f | |] eqn:Hloop; simpl in Hrun; [| done | done].
      injection Hrun as <-. exists f. split; [done |].
      destruct Hf1 as [[Hw Ht] | Hst].
      * apply while_during in Hloop.
        pose proof (early_walk_body N tp R) as Hbody.
        split; [by eapply during_log |]. left. split.
        -- by eapply during_walking.
        -- intros Hin. eapply during_tagged; eauto.
      * destruct Hst as (_ & Hij & _).
        by destruct (while_stalled _ fuel f1 f (early_body_None tp R) Hij).
Qed.

(** ** The early-termination loop with probability 0 *)

Lemma choose_uniformly_sim {A : Type} R g g' (l : list A) :
  randint_calls g = randint_calls g' →
  result_rel (λ a b, a.1 = b.1 ∧ randint_calls a.2 = randint_calls b.2)
    (SAW._choose_uniformly R g l) (SAW._choose_uniformly R g' l).
Proof.
  intros Hg. unfold SAW._choose_uniformly, randint. rewrite Hg.
  case_decide; by destruct (l !! _).
Qed.

Lemma take_step_sim R i j pw f f' :
  same_but_uniform f f' →
  result_rel same_but_uniform (SAW.take_step R i j pw f) (SAW.take_step R i j pw f').
Proof.
  intros (Hg & Hk & Hx & Hy & Hij & Hn & Hrng). unfold SAW.take_step.
  pose proof (choose_uniformly_sim R (f_rng f) (f_rng f') pw Hrng) as Hch.
  destruct (SAW._choose_uniformly R (f_rng f) pw) as [[d g] |],
    (SAW._choose_uniformly R (f_rng f') pw) as [[d' g'] |];
    simpl in Hch |- *; try done.
  destruct Hch as [<- Hg']. rewrite <- Hg, <- Hk, <- Hx, <- Hy, <- Hn.
  by destruct (SAW._walk (f_grid f) i j d) as [[m ij] |].
Qed.

Ltac solve_sim :=
  unfold same_but_uniform, SAW.log_pop, SAW.log_append in *; simpl in *;
  split_and!; congruence.

(** With probability 0 the draw of [uniform] never fires, and the turn of
    [SAWEarly] is the turn of [SAW]. *)
Lemma loop_body_sim R f f' :
  uniform_source R → same_but_uniform f f' →
  result_rel (λ a b, a.1 = b.1 ∧ same_but_uniform a.2 b.2)
    (SAWEarly.loop_body 0 R f) (SAW.loop_body R f').
Proof.
  intros HR Hsim. pose proof Hsim as (Hg & Hk & Hx & Hy & Hij & Hn & Hrng).
  unfold SAWEarly.loop_body, SAW.loop_body. rewrite <- Hij, <- Hg.
  destruct (f_ij f) as [[i j] |] eqn:Hfij; [| done].
  destruct (SAW._check_walks (f_grid f) i j) as [pw pv].
  unfold uniform.
  destruct (HR (uniform_calls (f_rng (SAW.log_append (length pw) f)))) as [-> _].
  case_decide.
  - simpl. split; [done |]. solve_sim.
  - match goal with |- context [SAW.take_step R i j pw ?f0] =>
      pose proof (take_step_sim R i j pw f0 (SAW.log_append (length pw) f')) as Hts
    end.
    match type of Hts with ?P → _ =>
      assert P as HP by solve_sim; specialize (Hts HP)
    end.
    match goal with |- context [SAW.take_step R i j pw ?f0] =>
      destruct (SAW.take_step R i j pw f0) as [a |]
    end;
    destruct (SAW.take_step R i j pw (SAW.log_append (length pw) f')) as [b |];
      simpl in Hts |- *; done.
Qed.

Lemma while_sim R fuel f f' :
  uniform_source R → same_but_uniform f f' →
  outcome_rel same_but_uniform
    (while_not_colide (SAWEarly.loop_body 0 R) fuel f)
    (while_not_colide (SAW.loop_body R) fuel f').
Proof.
  intros HR. revert f f'. induction fuel as [| fuel IH]; intros f f' Hsim;
    simpl; [done |].
  pose proof (loop_body_sim R f f' HR Hsim) as Hb.
  destruct (SAWEarly.loop_body 0 R f) as [[c a] | e],
    (SAW.loop_body R f') as [[c' b] | e']; simpl in Hb; try done.
  destruct Hb as [<- Hb]. destruct c; [done |]. by apply IH.
Qed.

Lemma evolution_sim R fuel f :
  uniform_source R →
  outcome_rel same_but_uniform
    (SAWEarly._evolution fuel 0 R f) (SAW._evolution fuel R f).
Proof.
  intros HR. unfold SAWEarly._evolution, SAWEarly.first_walk,
    SAW._evolution, SAW.first_walk.
  destruct (SAW.initial f) as [[i j] |]; cbn [mbind result_bind]; try done.
  destruct (SAW._check_walks (f_grid f) i j) as [pw pv].
  unfold uniform.
  destruct (HR (uniform_calls (f_rng (SAW.log_append (length pw) f)))) as [-> _].
  match goal with |- context [SAW.take_step R i j pw (Frame ?a ?b ?c ?d ?e ?n ?g)] =>
    pose proof (take_step_sim R i j pw (Frame a b c d e n g)
                  (SAW.log_append (length pw) f)) as Hts;
    match type of Hts with ?P → _ =>
      assert P as HP by solve_sim; specialize (Hts HP)
    end;
    destruct (SAW.take_step R i j pw (Frame a b c d e n g)) as [a' |]
  end;
  destruct (SAW.take_step R i j pw (SAW.log_append (length pw) f)) as [b' |];
    cbn [mbind result_bind outcome_bind lift]; simpl in Hts; try done.
  by apply while_sim.
Qed.

(** The frame a loop ends with was left by a [break]. *)
Lemma while_break body fuel f1 r :
  while_not_colide body fuel f1 = Done r →
  ∃ f, during body f1 f ∧ body f = Ok (true, r).
Proof.
  intros Hrun.
  assert (∀ f, during body f1 f → while_not_colide body fuel f = Done r →
               ∃ f', during body f1 f' ∧ body f' = Ok (true, r)) as Hgen.
  { clear Hrun. induction fuel as [| fuel IH]; intros f Hd; simpl; [done |].
    destruct (body f) as [[[] f'] |] eqn:Hb; [| | done].
    - intros [= <-]. eauto.
    - apply IH. eapply during_next; eauto. }
  eapply Hgen; [apply during_first | done].
Qed.

(** The loop of [SAW] breaks only where no direction is legal. *)
Lemma base_body_Break R f r :
  SAW.loop_body R f = Ok (true, r) →
  ∃ p, f_ij f = Some p ∧ SAW._check_walks (f_grid f) p.1 p.2 = ([], []) ∧
       same_walk f r.
Proof.
  unfold SAW.loop_body. destruct (f_ij f) as [[i j] |]; [| done].
  destruct (SAW._check_walks (f_grid f) i j) as [pw pv] eqn:Hcw.
  case_decide as Hn.
  - intros [= <-]. exists (i, j). split; [done |]. split; [| by repeat split].
    simpl. rewrite Hcw. apply length_zero_nil in Hn. subst pw.
    rewrite check_walks_filter in Hcw. cbv zeta in Hcw.
    injection Hcw as H1 H2. apply fmap_nil_inv in H1. rewrite H1 in H2.
    by rewrite <- H2.
  - by destruct (SAW.take_step R i j pw _).
Qed.

(** * The properties of the walks *)

Example base_2x2 : SAW.__init__ 10 first_source 2 0 0 = Done sample_walk.
Proof. vm_compute. reflexivity. Qed.

Lemma sample_constructs : constructs 2 0 0 sample_walk.
Proof. left. exists 10%nat, first_source. vm_compute. reflexivity. Qed.

Lemma first_source_uniform : uniform_source first_source.
Proof. intros n. split; reflexivity. Qed.

(** C5. Move enumeration returns exactly the directions among left (1),
    right (2), up (3), down (4), in that order, whose target has both
    coordinates in [0, N) and an unvisited cell (value 0), with their
    targets.  A target with a negative coordinate or a coordinate of N or
    more is never returned, and a target on the lattice is returned or not
    by the value of its own cell, not of the cell a wrapped index reads. *)
Theorem check_walks_exact (N : nat) (m : ndarray) (i j : Z) :
  wf_grid N m →
  SAW._check_walks m i j =
    (legal_directions N m (i, j), target (i, j) <$> legal_directions N m (i, j)) ∧
  ∀ d, d ∈ (SAW._check_walks m i j).1 ↔
       d ∈ directions ∧ in_bounds N (target (i, j) d) ∧
       cell m (target (i, j) d) = Some 0.
Proof.
  intros Hwf. rewrite (check_walks_legal N m i j Hwf). split; [done |].
  intros d. simpl. rewrite elem_of_legal_directions. unfold legal. tauto.
Qed.

Lemma check_walks_exact_witness :
  wf_grid 2 sample_grid ∧
  (SAW._check_walks sample_grid 0 1 =
     (legal_directions 2 sample_grid (0, 1),
      target (0, 1) <$> legal_directions 2 sample_grid (0, 1)) ∧
   ∀ d, d ∈ (SAW._check_walks sample_grid 0 1).1 ↔
        d ∈ directions ∧ in_bounds 2 (target (0, 1) d) ∧
        cell sample_grid (target (0, 1) d) = Some 0).
Proof.
  assert (wf_grid 2 sample_grid) as Hwf.
  { split; [reflexivity | repeat constructor]. }
  split; [exact Hwf | exact (check_walks_exact 2 sample_grid 0 1 Hwf)].
Defined.

(** C1. A walk constructed by either class, on a lattice of any size, never
    revisits a cell: the positions of its trajectory are pairwise distinct,
    and the set of visited positions has as many elements as the trajectory
    has entries. *)
Theorem walk_never_revisits (N : nat) (x0 y0 : Z) (w : walker) :
  constructs N x0 y0 w →
  NoDup (trajectory w) ∧
  size (list_to_set (trajectory w) : gset (option Z * option Z)) =
    length (trajectory w).
Proof.
  intros Hc.
  assert (NoDup (trajectory w)) as Hnodup.
  { apply constructs_frame in Hc as (f & -> & _ & [[Hw _] | Hst]).
    - apply (walking_nodup N f Hw).
    - destruct Hst as (_ & _ & _ & Hx & Hy & _).
      unfold trajectory. simpl. rewrite Hx, Hy. simpl.
      apply NoDup_cons. split; [| apply NoDup_singleton].
      rewrite list_elem_of_singleton. done. }
  split; [done |]. by apply size_list_to_set.
Qed.

Lemma walk_never_revisits_witness :
  constructs 2 0 0 sample_walk ∧
  NoDup (trajectory sample_walk) ∧
  size (list_to_set (trajectory sample_walk) : gset (option Z * option Z)) =
    length (trajectory sample_walk).
Proof.
  split; [exact sample_constructs |].
  exact (walk_never_revisits 2 0 0 sample_walk sample_constructs).
Defined.

(** C8. The branching-factor log of a constructed walk, of either class,
    holds no zero: a count of zero legal directions is popped before the
    walk finishes, so the log does not end with a zero either. *)
Theorem log_has_no_zero (N : nat) (x0 y0 : Z) (w : walker) :
  constructs N x0 y0 w →
  Forall (λ n : nat, n ≠ 0%nat) (self_k w) ∧ last (self_k w) ≠ Some 0%nat.
Proof.
  intros Hc. apply constructs_frame in Hc as (f & -> & Hlog & _). simpl.
  assert (Forall (λ n : nat, n ≠ 0%nat) (f_k f)) as Hall.
  { eapply Forall_impl; [exact Hlog |]. simpl. intros n Hn. lia. }
  split; [done |]. intros Hlast.
  apply last_Some_elem_of in Hlast. rewrite Forall_forall in Hall.
  by apply (Hall _ Hlast).
Qed.

Lemma log_has_no_zero_witness :
  constructs 2 0 0 sample_walk ∧
  Forall (λ n : nat, n ≠ 0%nat) (self_k sample_walk) ∧
  last (self_k sample_walk) ≠ Some 0%nat.
Proof.
  split; [exact sample_constructs |].
  exact (log_has_no_zero 2 0 0 sample_walk sample_constructs).
Defined.

Lemma stalled_off_lattice N x0 y0 f : in_bounds N (x0, y0) → ¬ stalled N x0 y0 f.
Proof. intros Hin (Hout & _). done. Qed.

(** C10, as the code has it from a start off the lattice. [SAW(2, -1, 0)]
    steps down onto (0, 0) and its first write, at row -1, wraps around to
    the cell (1, 0): that cell holds 4 and is no position of the trajectory.
    [SAW(1, -1, 0)] ends on the cell (0, 0), which the same wrapped write
    has set to 4. *)
Lemma marks_wrap_from_off_lattice :
  SAW.__init__ 10 first_source 2 (-1) 0 = Done wrapped_walk ∧
  trajectory wrapped_walk =
    [at_pos (-1, 0); at_pos (0, 0); at_pos (0, 1); at_pos (1, 1)] ∧
  cell (self_grid wrapped_walk) (1, 0) = Some 4 ∧
  SAW.__init__ 10 first_source 1 (-1) 0 = Done wrapped_end ∧
  last (trajectory wrapped_end) = Some (at_pos (0, 0)) ∧
  cell (self_grid wrapped_end) (0, 0) = Some 4.
Proof. vm_compute. done. Qed.

(** C10. After a construction by either class from a position of the
    lattice, the trajectory lies on the lattice and the cells that are not 0
    are exactly its positions other than the last; each of them holds the
    code of the direction by which the walker left it, and the cell of the
    last position still holds 0. *)
Theorem lattice_marks_departures (N : nat) (x0 y0 : Z) (w : walker) :
  in_bounds N (x0, y0) → constructs N x0 y0 w →
  Forall (on_lattice N) (trajectory w) ∧
  ∃ p, last (trajectory w) = Some (at_pos p) ∧
       cell (self_grid w) p = Some 0 ∧
       (∀ q, in_bounds N q →
             cell (self_grid w) q ≠ Some 0 ↔ at_pos q ∈ trajectory w ∧ q ≠ p) ∧
       (∀ t q q', trajectory w !! t = Some (at_pos q) →
                  trajectory w !! S t = Some (at_pos q') →
                  ∃ d, d ∈ directions ∧ cell (self_grid w) q = Some d ∧
                       q' = target q d).
Proof.
  intros Hin Hc.
  apply constructs_frame in Hc as (f & -> & _ & [[Hw Ht] | Hst]);
    [| by destruct (stalled_off_lattice N x0 y0 f Hin)].
  specialize (Ht Hin).
  destruct Hw as [Hwf Hlen Hnodup (p & Hij & Hp & Hlast) Hmarked Hsteps].
  destruct Ht as [Hall Hzero Honly Hcode Hfree].
  unfold trajectory. simpl. fold (f_trajectory f).
  split; [done |]. exists p. split_and!; try done.
  - by apply Hzero.
  - intros q Hq. split.
    + intros Hne. split; [by apply Honly |].
      intros ->. apply Hne. by apply Hzero.
    + intros [Hel Hne]. by eapply Hmarked.
Qed.

Lemma lattice_marks_departures_witness :
  in_bounds 2 (0, 0) ∧ constructs 2 0 0 sample_walk ∧
  Forall (on_lattice 2) (trajectory sample_walk) ∧
  ∃ p, last (trajectory sample_walk) = Some (at_pos p) ∧
       cell (self_grid sample_walk) p = Some 0 ∧
       (∀ q, in_bounds 2 q →
             cell (self_grid sample_walk) q ≠ Some 0 ↔
             at_pos q ∈ trajectory sample_walk ∧ q ≠ p) ∧
       (∀ t q q', trajectory sample_walk !! t = Some (at_pos q) →
                  trajectory sample_walk !! S t = Some (at_pos q') →
                  ∃ d, d ∈ directions ∧ cell (self_grid sample_walk) q = Some d ∧
                       q' = target q d).
Proof.
  assert (in_bounds 2 (0, 0)) as Hin by (unfold in_bounds; simpl; lia).
  split; [exact Hin |]. split; [exact sample_constructs |].
  exact (lattice_marks_departures 2 0 0 sample_walk Hin sample_constructs).
Defined.

Lemma enters_walking N x0 y0 body f1 :
  in_bounds N (x0, y0) → enters N x0 y0 body f1 →
  walking N f1 ∧ tagged N f1 ∧ ∃ R, walk_body N R body.
Proof.
  intros Hin [(R & Hfirst & ->) | (R & tp & c & Hfirst & ->)].
  - apply base_first_walk in Hfirst as [_ [[Hw Ht] | Hst]];
      [| by destruct (stalled_off_lattice N x0 y0 f1 Hin)].
    split_and!; [done | by apply Ht |]. exists R. apply base_walk_body.
  - apply early_first_walk in Hfirst as (_ & _ & [[Hw Ht] | Hst]);
      [| by destruct (stalled_off_lattice N x0 y0 f1 Hin)].
    split_and!; [done | by apply Ht |]. exists R. apply early_walk_body.
Qed.

(** ** Termination *)

Lemma base_init_total N R x0 y0 :
  ∃ r, (∀ fuel, (N * N < fuel)%nat → SAW.__init__ fuel R N x0 y0 = r) ∧
       r ≠ OutOfFuel ∧
       (∀ w, r = Done w → (self_n_walks w ≤ N * N)%nat) ∧
       ((2 ≤ N)%nat → in_bounds N (x0, y0) → ∃ w, r = Done w).
Proof.
  unfold SAW.__init__, SAW._evolution.
  destruct (SAW.first_walk R (SAW.fresh N x0 y0 rng_start))
    as [f1 | e] eqn:Hfirst; cbn [mbind outcome_bind lift].
  - apply base_first_walk in Hfirst as [_ [[Hw _] | Hst]].
    + destruct (loop_terminates N R _ (base_walk_body N R) (S (N * N)) f1 Hw)
        as (f & Hd & Hrun); [lia |].
      exists (Done (SAW.finish f)). split_and!.
      * intros fuel Hfuel. rewrite Hrun by lia. done.
      * done.
      * intros w [= <-]. simpl. apply (walking_bound N).
        eapply during_walking; eauto using base_walk_body.
      * eauto.
    + exists (Raise TypeError). split_and!; try done.
      * intros [| fuel] Hfuel; [lia |]. simpl.
        destruct Hst as (_ & Hij & _). by rewrite (base_body_None R f1 Hij).
      * intros _ Hin. by destruct (stalled_off_lattice N x0 y0 f1 Hin).
  - exists (Raise e). split_and!; try done.
    intros HN Hin. rewrite (base_first_walk_eq N) in Hfirst.
    match type of Hfirst with SAW.take_step _ _ _ _ ?f0 = _ =>
      destruct (take_step_progress N R f0 f0 (x0, y0)) as [f' Hf'];
        [apply zeros_wf | done | apply same_walk_refl
        | by apply legal_directions_start |]
    end.
    cbn [fst snd f_grid] in Hf'. congruence.
Qed.

Lemma early_init_total N R x0 y0 tp :
  ∃ r, (∀ fuel, (N * N < fuel)%nat → SAWEarly.__init__ fuel R N x0 y0 tp = r) ∧
       r ≠ OutOfFuel ∧
       (∀ w, r = Done w → (self_n_walks w ≤ N * N)%nat) ∧
       ((2 ≤ N)%nat → in_bounds N (x0, y0) → ∃ w, r = Done w).
Proof.
  unfold SAWEarly.__init__, SAWEarly._evolution.
  destruct (SAWEarly.first_walk tp R (SAW.fresh N x0 y0 rng_start))
    as [[c f1] | e] eqn:Hfirst; cbn [mbind outcome_bind lift].
  - apply early_first_walk in Hfirst as (_ & _ & Hf1). destruct c.
    + exists (Done (SAW.finish f1)). split_and!; try done; [| eauto].
      intros w [= <-]. simpl. destruct Hf1 as [[Hw _] | Hst].
      * by apply (walking_bound N).
      * destruct Hst as (_ & _ & _ & _ & _ & -> & HN). nia.
    + destruct Hf1 as [[Hw _] | Hst].
      * destruct (loop_terminates N R _ (early_walk_body N tp R) (S (N * N)) f1 Hw)
          as (f & Hd & Hrun); [lia |].
        exists (Done (SAW.finish f)). split_and!.
        -- intros fuel Hfuel. rewrite Hrun by lia. done.
        -- done.
        -- intros w [= <-]. simpl. apply (walking_bound N).
           eapply during_walking; eauto using early_walk_body.
        -- eauto.
      * exists (Raise TypeError). split_and!; try done.
        -- intros [| fuel] Hfuel; [lia |]. simpl.
           destruct Hst as (_ & Hij & _).
           by rewrite (early_body_None tp R f1 Hij).
        -- intros _ Hin. by destruct (stalled_off_lattice N x0 y0 f1 Hin).
  - exists (Raise e). split_and!; try done.
    intros HN Hin. rewrite (early_first_walk_eq N) in Hfirst.
    match type of Hfirst with mbind _ (SAW.take_step _ _ _ _ ?f0) = _ =>
      destruct (take_step_progress N R f0 f0 (x0, y0)) as [f' Hf'];
        [apply zeros_wf | done | apply same_walk_refl
        | by apply legal_directions_start |]
    end.
    cbn [fst snd f_grid] in Hf'. rewrite Hf' in Hfirst. done.
Qed.

(** C6. The evolution of either class terminates, on a lattice of any size:
    with a bound of more than N * N turns the loop never runs out, the
    construction gives the same result whatever the bound, and a walk it
    returns has at most N * N steps.  From a position of a lattice with
    N >= 2 the result is a walk.  The reason is the count of free cells: in
    a walk started on the lattice every accepted step marks a cell that held
    0, so the count goes down by one as the step counter goes up by one, and
    their sum stays N * N. *)
Theorem evolution_terminates (N : nat) (R : random_source) (x0 y0 : Z) (tp : float) :
  (∃ r, (∀ fuel, (N * N < fuel)%nat → SAW.__init__ fuel R N x0 y0 = r) ∧
        r ≠ OutOfFuel ∧
        (∀ w, r = Done w → (self_n_walks w ≤ N * N)%nat) ∧
        ((2 ≤ N)%nat → in_bounds N (x0, y0) → ∃ w, r = Done w)) ∧
  (∃ r, (∀ fuel, (N * N < fuel)%nat → SAWEarly.__init__ fuel R N x0 y0 tp = r) ∧
        r ≠ OutOfFuel ∧
        (∀ w, r = Done w → (self_n_walks w ≤ N * N)%nat) ∧
        ((2 ≤ N)%nat → in_bounds N (x0, y0) → ∃ w, r = Done w)) ∧
  (∀ body f1 f f',
     in_bounds N (x0, y0) → enters N x0 y0 body f1 → during body f1 f →
     body f = Ok (false, f') →
     free_cells N (f_grid f) = S (free_cells N (f_grid f')) ∧
     f_n_steps f' = S (f_n_steps f)) ∧
  (∀ w, in_bounds N (x0, y0) → constructs N x0 y0 w →
        (free_cells N (self_grid w) + self_n_walks w = N * N)%nat).
Proof.
  split_and!.
  - apply base_init_total.
  - apply early_init_total.
  - intros body f1 f f' Hin Hent Hd Hstep.
    destruct (enters_walking N x0 y0 body f1 Hin Hent) as (Hw1 & Ht1 & R' & Hbody).
    pose proof (during_walking N R' body Hbody f1 f Hw1 Hd) as Hw.
    pose proof (during_tagged N R' body Hbody f1 f Hw1 Ht1 Hd) as Ht.
    pose proof (body_tagged N R' body Hbody f false f' Hw Ht Hstep) as Ht'.
    pose proof (body_steps N R' body Hbody f f' Hw Hstep) as Hn.
    split; [| done].
    pose proof (tagged_free N f Ht). pose proof (tagged_free N f' Ht'). lia.
  - intros w Hin Hc.
    apply constructs_frame in Hc as (f & -> & _ & [[_ Ht] | Hst]);
      [| by destruct (stalled_off_lattice N x0 y0 f Hin)].
    apply (tagged_free N f (Ht Hin)).
Qed.

(** ** Probability 0 of early termination *)

Lemma finish_sim f f' : same_but_uniform f f' → SAW.finish f = SAW.finish f'.
Proof.
  intros (Hg & Hk & Hx & Hy & _ & Hn & _). unfold SAW.finish. congruence.
Qed.

(** A walk of [SAW] ends where no direction is legal. *)
Lemma base_trapped fuel R N x0 y0 w :
  SAW.__init__ fuel R N x0 y0 = Done w → trapped w.
Proof.
  unfold SAW.__init__, SAW._evolution.
  destruct (SAW.first_walk R (SAW.fresh N x0 y0 rng_start))
    as [f1 |] eqn:Hfirst; cbn [mbind outcome_bind lift]; [| done].
  destruct (while_not_colide (SAW.loop_body R) fuel f1)
    as [f | |] eqn:Hloop; cbn [mbind outcome_bind]; [| done | done].
  intros [= <-].
  apply base_first_walk in Hfirst as [_ [[Hw _] | Hst]].
  - apply while_break in Hloop as (f2 & Hd & Hbreak).
    apply (during_walking N R _ (base_walk_body N R) f1 f2 Hw) in Hd.
    apply base_body_Break in Hbreak as (p & Hij & Hcw & Hg & Hx & Hy & _).
    destruct (walking_here N f2 Hd) as (p' & Hij' & _ & Hlast).
    rewrite Hij in Hij'. injection Hij' as <-.
    exists p. unfold trajectory. simpl. rewrite Hg, Hx, Hy. done.
  - destruct Hst as (_ & Hij & _).
    by destruct (while_stalled _ fuel f1 f (base_body_None R) Hij).
Qed.

(** C7. With [terminate_probability = 0.0] and the same draws for the
    choice of moves, [SAWEarly] does what [SAW] does: the same walk (lattice,
    log, trajectory, number of steps) or the same failure, and a walk ends
    for the same reason, that no legal move is left. *)
Theorem early_zero_is_base (fuel : nat) (R : random_source) (N : nat) (x0 y0 : Z) :
  uniform_source R →
  SAWEarly.__init__ fuel R N x0 y0 0 = SAW.__init__ fuel R N x0 y0 ∧
  ∀ w, SAWEarly.__init__ fuel R N x0 y0 0 = Done w → trapped w.
Proof.
  intros HR.
  assert (SAWEarly.__init__ fuel R N x0 y0 0 = SAW.__init__ fuel R N x0 y0) as Heq.
  { unfold SAWEarly.__init__, SAW.__init__.
    pose proof (evolution_sim R fuel (SAW.fresh N x0 y0 rng_start) HR) as Hsim.
    destruct (SAWEarly._evolution fuel 0 R (SAW.fresh N x0 y0 rng_start))
      as [a | e |],
      (SAW._evolution fuel R (SAW.fresh N x0 y0 rng_start)) as [b | e' |];
      simpl in Hsim |- *; try done.
    - by rewrite (finish_sim a b Hsim).
    - by subst. }
  split; [done |]. intros w Hw. rewrite Heq in Hw. by eapply base_trapped.
Qed.

Lemma early_zero_is_base_witness :
  uniform_source first_source ∧
  SAWEarly.__init__ 10 first_source 2 0 0 0 = SAW.__init__ 10 first_source 2 0 0 ∧
  ∀ w, SAWEarly.__init__ 10 first_source 2 0 0 0 = Done w → trapped w.
Proof.
  split; [exact first_source_uniform |].
  exact (early_zero_is_base 10 first_source 2 0 0 first_source_uniform).
Defined.

(** ** The trial probability *)

Lemma last_cumprod_from a l :
  last (a :: SAW.cumprod_from a l) = Some (foldl PrimFloat.mul a l).
Proof.
  revert a. induction l as [| b l IH]; intros a; [done |].
  simpl. simpl in IH. by rewrite <- IH.
Qed.

Lemma last_cumprod l : l ≠ [] → last (SAW.cumprod l) = Some (product l).
Proof. destruct l as [| a l]; [done |]. intros _. apply last_cumprod_from. Qed.

(** What the code divides by is what the specification divides by. *)
Lemma reciprocals_reciprocal k : SAW.reciprocals k = map reciprocal k.
Proof.
  unfold SAW.reciprocals. apply map_ext. intros n.
  unfold reciprocal, SAW.float_of_count. reflexivity.
Qed.

Lemma trial_probability_nonempty w :
  self_k w ≠ [] →
  SAW.trial_probability w = Ok (reciprocal_product (self_k w)).
Proof.
  intros Hne. unfold SAW.trial_probability, reciprocal_product. simpl.
  rewrite last_cumprod.
  - by rewrite reciprocals_reciprocal.
  - rewrite reciprocals_reciprocal. by destruct (self_k w).
Qed.

(** C4. [trial_probability] returns the product, taken in binary64 in the
    order of the log, of the reciprocals 1/k of the logged branching
    factors (and fails on an empty log); for the log [3, 2, 1] that product
    is 1/3 * 1/2 * 1/1, and it is 1/6. *)
Theorem trial_probability_product :
  (∀ w, SAW.trial_probability w =
        match self_k w with
        | [] => Err IndexError
        | _ => Ok (reciprocal_product (self_k w))
        end) ∧
  reciprocal_product [3; 2; 1]%nat = (1 / 3 * (1 / 2) * (1 / 1))%float ∧
  (∀ grid x y n,
     SAW.trial_probability (Walker grid [3; 2; 1]%nat x y n) = Ok (1 / 6)%float).
Proof.
  split; [| split].
  - intros w. destruct (self_k w) as [| n k] eqn:Hk.
    + unfold SAW.trial_probability. by rewrite Hk.
    + rewrite <- Hk. apply trial_probability_nonempty. by rewrite Hk.
  - vm_compute. reflexivity.
  - intros grid x y n. vm_compute. reflexivity.
Qed.

Example early_log_3_2_1 :
  ∃ w, SAWEarly.__init__ 20 second_source 4 0 1 0.5 = Done w ∧
       self_k w = [3; 2; 1]%nat ∧ self_n_walks w = 2%nat ∧
       SAW.trial_probability w = Ok (1 / 6)%float.
Proof. eexists. vm_compute. done. Qed.

(** ** The tags of the lattice *)

(** C9, as the code has it. The cell (0, 1) of [sample_walk] was entered by
    a step to the right (2) and holds 4, the code of the step down that left
    it; the cell (1, 0), where the walk ended, was visited and holds 0. *)
Lemma tag_is_not_entry_direction :
  SAW.__init__ 10 first_source 2 0 0 = Done sample_walk ∧
  trajectory sample_walk = [at_pos (0, 0); at_pos (0, 1); at_pos (1, 1); at_pos (1, 0)] ∧
  target (0, 0) 2 = (0, 1) ∧
  cell (self_grid sample_walk) (0, 1) = Some 4 ∧
  target (0, 1) 4 = (1, 1) ∧
  cell (self_grid sample_walk) (1, 0) = Some 0.
Proof. vm_compute. done. Qed.

(** C9, amended. Throughout and after a walk that starts on the lattice,
    in every frame the loop of either class goes through: the cell the
    walker stands on holds 0; every other visited cell, and no unvisited
    one, holds a code of 1..4, the code of the direction by which the walker
    left it; and an accepted step writes that code once, in a cell that held
    0, and changes no other cell. *)
Theorem tags_record_departures (N : nat) (x0 y0 : Z)
    (body : frame → result (bool * frame)) (f1 f : frame) :
  in_bounds N (x0, y0) → enters N x0 y0 body f1 → during body f1 f →
  departure_tags N body f.
Proof.
  intros Hin Hent Hd.
  destruct (enters_walking N x0 y0 body f1 Hin Hent) as (Hw1 & Ht1 & R & Hbody).
  pose proof (during_walking N R body Hbody f1 f Hw1 Hd) as Hw.
  pose proof (during_tagged N R body Hbody f1 f Hw1 Ht1 Hd) as Ht.
  split_and!.
  - destruct Hw as [Hwf Hlen Hnodup (p & Hij & Hp & Hlast) Hmarked Hsteps].
    destruct Ht as [Hall Hzero Honly Hcode Hfree].
    exists p. split_and!; try done; [by apply Hzero |].
    intros q Hq. split.
    + intros Hne. split; [by apply Honly |].
      intros ->. apply Hne. by apply Hzero.
    + intros [Hel Hne]. by eapply Hmarked.
  - apply (tagged_code N f Ht).
  - intros f' Hstep. by eapply body_departs.
Qed.

Lemma tags_record_departures_witness :
  in_bounds 2 (0, 0) ∧
  enters 2 0 0 (SAW.loop_body first_source) sample_frame ∧
  during (SAW.loop_body first_source) sample_frame sample_frame ∧
  departure_tags 2 (SAW.loop_body first_source) sample_frame.
Proof.
  assert (in_bounds 2 (0, 0)) as Hin by (unfold in_bounds; simpl; lia).
  assert (enters 2 0 0 (SAW.loop_body first_source) sample_frame) as Hent.
  { left. exists first_source. split; [vm_compute | ]; reflexivity. }
  split; [exact Hin |]. split; [exact Hent |].
  split; [apply during_first |].
  exact (tags_record_departures 2 0 0 _ sample_frame sample_frame Hin Hent
           (during_first _ _)).
Defined.

(** ** The first attempt *)

(** C3, on the code. On a 1x1 lattice the first enumeration finds no legal
    move, and [_choose_uniformly] is called on the empty list all the same:
    the construction raises [IndexError]. *)
Theorem base_1x1_raises (fuel : nat) (R : random_source) :
  SAW._check_walks (SAW._grid 1) 0 0 = ([], []) ∧
  SAW.__init__ fuel R 1 0 0 = Raise IndexError.
Proof. split; reflexivity. Qed.

(** C2, on the code. When the draw of the first attempt fires, the first
    step is taken all the same: with [terminate_probability = 1.0] the walk
    on a 2x2 lattice has one step, a trajectory of two positions and a
    marked cell. *)
Theorem early_certain_termination_steps (fuel : nat) :
  ∃ w, SAWEarly.__init__ fuel first_source 2 0 0 1 = Done w ∧
       self_n_walks w = 1%nat ∧
       trajectory w = [at_pos (0, 0); at_pos (0, 1)] ∧
       self_grid w = [ [2; 0]; [0; 0] ] ∧ self_k w = [2%nat].
Proof. eexists. split; [reflexivity |]. done. Qed.

(** Whatever the size of the lattice and the draws, a walk of [SAWEarly]
    with [terminate_probability = 1.0] has exactly one step. *)
Lemma early_certain_termination N R fuel x0 y0 w :
  uniform_source R →
  SAWEarly.__init__ fuel R N x0 y0 1 = Done w →
  self_n_walks w = 1%nat ∧ length (trajectory w) = 2%nat.
Proof.
  intros HR. unfold SAWEarly.__init__, SAWEarly._evolution.
  rewrite (early_first_walk_eq N).
  destruct (HR (uniform_calls rng_start)) as [_ ->].
  match goal with |- context [SAW.take_step ?R ?i ?j ?pw ?f0] =>
    destruct (SAW.take_step R i j pw f0) as [f1 |] eqn:Hstep
  end; cbn [mbind result_bind outcome_bind lift]; [| done].
  intros [= <-].
  apply take_step_Ok in Hstep as (d & g & m' & ij & _ & _ & ->).
  done.
Qed.

(** In the loop, a draw that fires takes no step: the lattice, the
    trajectory, the position and the step counter are as they were. *)
Lemma early_loop_termination tp R f p :
  f_ij f = Some p →
  (uniform_draws R (uniform_calls (f_rng f)) <? tp)%float = true →
  ∃ f', SAWEarly.loop_body tp R f = Ok (true, f') ∧ same_walk f f'.
Proof.
  intros Hij Hu. unfold SAWEarly.loop_body. rewrite Hij. destruct p as [i j].
  destruct (SAW._check_walks (f_grid f) i j) as [pw pv].
  unfold uniform. simpl. rewrite Hu.
  eexists. split; [done |]. by case_decide.
Qed.

(** * Further properties of the code *)

(** ** The bookkeeping of a walk *)

Lemma zeros_codes N : codes_only (zeros N).
Proof.
  unfold codes_only, zeros. apply Forall_replicate, Forall_replicate. lia.
Qed.

Lemma setitem_codes m p v m' :
  setitem m p v = Ok m' → codes_only m → 0 ≤ v ≤ 4 → codes_only m'.
Proof.
  unfold setitem, codes_only.
  destruct (np_index (length m) p.1) as [r |]; [| done].
  destruct (m !! r) as [row |] eqn:Hrow; [| done].
  destruct (np_index (length row) p.2) as [c |]; [| done].
  intros [= <-] Hall Hv. apply Forall_insert; [done |].
  apply Forall_insert; [| done].
  rewrite Forall_lookup in Hall. by eapply Hall.
Qed.

Lemma target_unit_step q d : d ∈ directions → unit_step q (target q d).
Proof.
  intros Hd. apply elem_of_directions in Hd.
  unfold unit_step, target. repeat case_decide; simpl; lia.
Qed.

Lemma lattice_path_singleton e : lattice_path [e].
Proof. intros t q q' _ Hq'. by destruct t. Qed.

(** A path goes on by one entry: a unit step from its last position, or an
    entry that is no pair of integers. *)
Lemma lattice_path_snoc tr p e :
  lattice_path tr → last tr = Some (at_pos p) →
  (∀ q', e = at_pos q' → unit_step p q') →
  lattice_path (tr ++ [e]).
Proof.
  intros Hpath Hlast He t q q' Ht HSt.
  apply last_Some in Hlast as [l' ->].
  assert (S t < length ((l' ++ [at_pos p]) ++ [e]))%nat as Hlt
    by (by apply lookup_lt_Some in HSt).
  rewrite !length_app in Hlt. simpl in Hlt.
  destruct (decide (S t < length (l' ++ [at_pos p]))%nat) as [Hin | Hout].
  - rewrite lookup_app_l in Ht by lia. rewrite lookup_app_l in HSt by done.
    by eapply Hpath.
  - rewrite length_app in Hout. simpl in Hout.
    assert (t = length l') as -> by lia.
    rewrite lookup_app_l in Ht by (rewrite length_app; simpl; lia).
    rewrite lookup_app_r in Ht by lia.
    rewrite Nat.sub_diag in Ht. simpl in Ht.
    apply (inj Some), at_pos_inj in Ht. subst q.
    rewrite lookup_app_r in HSt by (rewrite length_app; simpl; lia).
    rewrite length_app in HSt. simpl in HSt.
    replace (S (length l') - (length l' + 1))%nat with 0%nat in HSt by lia.
    simpl in HSt. apply (inj Some) in HSt. by apply He.
Qed.

(** A step of [take_step] from the last position of the trajectory keeps
    the books, whether [_walk] returns a target or [(None, None)]. *)
Lemma take_step_accounted R i j pw f0 f' :
  (∀ d, d ∈ pw → d ∈ directions) →
  length (f_x f0) = S (f_n_steps f0) → length (f_y f0) = S (f_n_steps f0) →
  codes_only (f_grid f0) →
  last (f_trajectory f0) = Some (at_pos (i, j)) →
  lattice_path (f_trajectory f0) →
  SAW.take_step R i j pw f0 = Ok f' →
  accounted f' ∧ f_k f' = f_k f0 ∧ f_n_steps f' = S (f_n_steps f0).
Proof.
  intros Hpw Hx Hy Hcodes Hlast Hpath Hstep.
  apply take_step_Ok in Hstep as (d & g & m' & ij & Hd & Hwalk & ->).
  apply Hpw in Hd. simpl. split; [| split; [done | lia]].
  split; simpl.
  - lia.
  - rewrite length_app, Hx. simpl. lia.
  - rewrite length_app, Hy. simpl. lia.
  - destruct ij as [t |].
    + apply walk_Some in Hwalk as [Hset _]; [| done].
      eapply setitem_codes; [exact Hset | done |].
      apply elem_of_directions in Hd. lia.
    + apply walk_None in Hwalk as [-> _]; done.
  - unfold f_trajectory. simpl.
    rewrite trajectory_snoc by congruence.
    eapply lattice_path_snoc; [exact Hpath | exact Hlast |].
    intros q' Hq'. destruct ij as [t |]; [| done].
    apply walk_Some in Hwalk as [_ ->]; [| done].
    simpl in Hq'. change (Some (target (i, j) d).1, Some (target (i, j) d).2)
      with (at_pos (target (i, j) d)) in Hq'.
    apply at_pos_inj in Hq'. subst q'. by apply target_unit_step.
Qed.

Section Books.
Context (N : nat) (R : random_source) (body : frame → result (bool * frame)).
Hypothesis Hbody : walk_body N R body.

Lemma body_accounted f colide f' :
  walking N f → accounted f → body f = Ok (colide, f') → accounted f'.
Proof.
  intros Hw [Hn Hx Hy Hcodes Hpath] Hstep.
  destruct (walking_here N f Hw) as (p & Hij & Hin & Hlast).
  destruct (Hbody f p (walking_wf N f Hw) Hij) as (Hcont & Hbreak & _).
  destruct colide.
  - destruct (Hbreak f' Hstep) as [(Hg' & Hx' & Hy' & Hij' & Hn') _].
    split; unfold f_trajectory in *; rewrite ?Hg', ?Hx', ?Hy', ?Hn'; done.
  - destruct (Hcont f' Hstep) as (_ & f0 & (Hg' & Hx' & Hy' & Hij' & Hn') & _ & Htake).
    destruct p as [i j].
    eapply (take_step_accounted R i j _ f0 f'); [| | | | | | exact Htake];
      unfold f_trajectory in *; rewrite ?Hg', ?Hx', ?Hy', ?Hn'; try done.
    intros d Hd. by apply elem_of_legal_directions in Hd as [Hd _].
Qed.

Lemma during_accounted f1 f :
  walking N f1 → accounted f1 → during body f1 f → accounted f.
Proof.
  intros Hw Ha Hd. induction Hd as [| f colide f' Hd IH Hstep]; [done |].
  eapply body_accounted; [| by apply IH | done].
  by eapply during_walking.
Qed.

(** The log of a loop that was entered with as many entries as steps. *)
Lemma while_log_length fuel f r :
  walking N f → length (f_k f) = f_n_steps f →
  while_not_colide body fuel f = Done r → log_length N r.
Proof.
  revert f. induction fuel as [| fuel IH]; intros f Hw Hlen; simpl; [done |].
  destruct (walking_here N f Hw) as (p & Hij & Hin & Hlast).
  destruct (Hbody f p (walking_wf N f Hw) Hij) as (Hcont & Hbreak & _).
  destruct (body f) as [[[] f'] | e] eqn:Hb; [| | done].
  - intros [= <-].
    destruct (Hbreak f' eq_refl) as [(Hg & _ & _ & Hij' & Hn) [Hk | [Hne Hk]]].
    + left. by rewrite Hk, Hn.
    + right. rewrite Hk, Hn, length_app, Hlen. simpl.
      split; [lia |]. exists p. rewrite Hij', Hg. split; [done |].
      intros Hnil. apply Hne. by rewrite Hnil.
  - apply IH.
    + by eapply body_walking.
    + destruct (Hcont f' eq_refl) as (_ & f0 & (_ & _ & _ & _ & Hn) & Hk & Htake).
      apply take_step_Ok in Htake as (d & g & m' & ij & _ & _ & ->). simpl.
      rewrite Hk, length_app, Hlen, Hn. done.
Qed.

End Books.

(** The first walk of either class leaves the books in order, with one log
    entry for its one step. *)
Lemma first_step_accounted N R x0 y0 g f :
  SAW.take_step R x0 y0 (legal_directions N (zeros N) (x0, y0))
    (Frame (zeros N) [length (legal_directions N (zeros N) (x0, y0))]
           [Some x0] [Some y0] None 0 g) = Ok f →
  accounted f ∧ length (f_k f) = 1%nat ∧ f_n_steps f = 1%nat.
Proof.
  intros Hstep.
  apply take_step_accounted in Hstep as (Ha & Hk & Hn); simpl; try done;
    first [ by rewrite Hk, Hn
          | by (intros d Hd; apply elem_of_legal_directions in Hd as [Hd _])
          | apply zeros_codes
          | apply lattice_path_singleton ].
Qed.

(** The frame behind a constructed walk has its books in order. *)
Lemma constructs_accounted N x0 y0 w :
  constructs N x0 y0 w → ∃ f, w = SAW.finish f ∧ accounted f.
Proof.
  intros [(fuel & R & Hrun) | (fuel & R & tp & Hrun)].
  - unfold SAW.__init__, SAW._evolution in Hrun.
    destruct (SAW.first_walk R (SAW.fresh N x0 y0 rng_start))
      as [f1 |] eqn:Hfirst; simpl in Hrun; [| done].
    destruct (while_not_colide (SAW.loop_body R) fuel f1)
      as [f | |] eqn:Hloop; simpl in Hrun; [| done | done].
    injection Hrun as <-. exists f. split; [done |].
    pose proof Hfirst as Hfirst'. rewrite (base_first_walk_eq N) in Hfirst'.
    apply first_step_accounted in Hfirst' as (Ha & _ & _).
    apply base_first_walk in Hfirst as [_ [[Hw _] | Hst]].
    + apply while_during in Hloop.
      eapply during_accounted; eauto using base_walk_body.
    + destruct Hst as (_ & Hij & _).
      by destruct (while_stalled _ fuel f1 f (base_body_None R) Hij).
  - unfold SAWEarly.__init__, SAWEarly._evolution in Hrun.
    destruct (SAWEarly.first_walk tp R (SAW.fresh N x0 y0 rng_start))
      as [[c f1] |] eqn:Hfirst; simpl in Hrun; [| done].
    pose proof Hfirst as Hfirst'. rewrite (early_first_walk_eq N) in Hfirst'.
    match type of Hfirst' with mbind _ (SAW.take_step ?R ?i ?j ?pw ?f0) = _ =>
      destruct (SAW.take_step R i j pw f0) as [f2 |] eqn:Hstep; [| done]
    end.
    simpl in Hfirst'. injection Hfirst' as _ ->.
    apply first_step_accounted in Hstep as (Ha & _ & _).
    apply early_first_walk in Hfirst as (_ & _ & Hf1).
    destruct c.
    + simpl in Hrun. injection Hrun as <-. by exists f1.
    + destruct (while_not_colide (SAWEarly.loop_body tp R) fuel f1)
        as [f | |] eqn:Hloop; simpl in Hrun; [| done | done].
      injection Hrun as <-. exists f. split; [done |].
      destruct Hf1 as [[Hw _] | Hst].
      * apply while_during in Hloop.
        eapply during_accounted; eauto using early_walk_body.
      * destruct Hst as (_ & Hij & _).
        by destruct (while_stalled _ fuel f1 f (early_body_None tp R) Hij).
Qed.

(** The frame a construction of [SAW] ends with: the log is as long as the
    step counter and no direction is legal where the walker stands. *)
Lemma base_end_frame fuel R N x0 y0 w :
  SAW.__init__ fuel R N x0 y0 = Done w →
  ∃ f p, w = SAW.finish f ∧ walking N f ∧ f_ij f = Some p ∧
         length (f_k f) = f_n_steps f ∧
         legal_directions N (f_grid f) p = [].
Proof.
  unfold SAW.__init__, SAW._evolution.
  destruct (SAW.first_walk R (SAW.fresh N x0 y0 rng_start))
    as [f1 |] eqn:Hfirst; cbn [mbind outcome_bind lift]; [| done].
  destruct (while_not_colide (SAW.loop_body R) fuel f1)
    as [f | |] eqn:Hloop; cbn [mbind outcome_bind]; [| done | done].
  intros [= <-].
  pose proof Hfirst as Hfirst'. rewrite (base_first_walk_eq N) in Hfirst'.
  apply first_step_accounted in Hfirst' as (_ & Hk1 & Hn1).
  apply base_first_walk in Hfirst as [_ [[Hw1 _] | Hst]].
  - pose proof (base_walk_body N R) as Hbody.
    pose proof (while_log_length N R _ Hbody fuel f1 f Hw1
                  ltac:(by rewrite Hk1, Hn1) Hloop) as Hlog.
    pose proof (during_walking N R _ Hbody f1 f Hw1 (while_during _ _ _ _ Hloop))
      as Hw.
    apply while_break in Hloop as (f2 & Hd & Hbreak).
    apply (during_walking N R _ Hbody f1 f2 Hw1) in Hd.
    apply base_body_Break in Hbreak as (p & Hij & Hcw & Hg & _ & _ & Hij' & _).
    rewrite (check_walks_legal N _ _ _ (walking_wf N f2 Hd)) in Hcw.
    injection Hcw as Hnil _. destruct p as [i j]. simpl in Hnil.
    rewrite <- Hg in Hnil. rewrite <- Hij' in Hij.
    exists f, (i, j). split_and!; try done.
    destruct Hlog as [Hlog | (_ & p' & Hp' & Hne)]; [done |].
    rewrite Hij in Hp'. injection Hp' as <-. done.
  - destruct Hst as (_ & Hij & _).
    by destruct (while_stalled _ fuel f1 f (base_body_None R) Hij).
Qed.

(** The frame a construction of [SAWEarly] ends with. *)
Lemma early_end_frame fuel R N x0 y0 tp w :
  SAWEarly.__init__ fuel R N x0 y0 tp = Done w →
  ∃ f, w = SAW.finish f ∧ log_length N f ∧
       (walking N f ∨ stalled N x0 y0 f).
Proof.
  unfold SAWEarly.__init__, SAWEarly._evolution.
  destruct (SAWEarly.first_walk tp R (SAW.fresh N x0 y0 rng_start))
    as [[c f1] |] eqn:Hfirst; cbn [mbind outcome_bind lift]; [| done].
  pose proof Hfirst as Hfirst'. rewrite (early_first_walk_eq N) in Hfirst'.
  match type of Hfirst' with mbind _ (SAW.take_step ?R ?i ?j ?pw ?f0) = _ =>
    destruct (SAW.take_step R i j pw f0) as [f2 |] eqn:Hstep; [| done]
  end.
  simpl in Hfirst'. injection Hfirst' as _ ->.
  apply first_step_accounted in Hstep as (_ & Hk1 & Hn1).
  apply early_first_walk in Hfirst as (_ & _ & Hf1).
  destruct c.
  - intros [= <-]. exists f1. split; [done |]. split.
    + left. by rewrite Hk1, Hn1.
    + destruct Hf1 as [[Hw _] | Hst]; [by left | by right].
  - destruct (while_not_colide (SAWEarly.loop_body tp R) fuel f1)
      as [f | |] eqn:Hloop; cbn [mbind outcome_bind]; [| done | done].
    intros [= <-]. exists f. split; [done |].
    destruct Hf1 as [[Hw1 _] | Hst].
    + pose proof (early_walk_body N tp R) as Hbody. split.
      * eapply (while_log_length N R _ Hbody fuel f1 f Hw1); [| done].
        by rewrite Hk1, Hn1.
      * left. eapply during_walking; eauto using while_during.
    + destruct Hst as (_ & Hij & _).
      by destruct (while_stalled _ fuel f1 f (early_body_None tp R) Hij).
Qed.

(** The log of a constructed walk is never empty. *)
Lemma constructs_log_nonempty N x0 y0 w :
  constructs N x0 y0 w → self_k w ≠ [].
Proof.
  intros Hc.
  destruct (constructs_accounted N x0 y0 w Hc) as (f & Hf & Ha).
  pose proof (accounted_steps f Ha) as Hn.
  assert (f_n_steps f ≤ length (self_k w))%nat as Hle.
  { destruct Hc as [(fuel & R & Hrun) | (fuel & R & tp & Hrun)].
    - apply base_end_frame in Hrun as (f' & p & Hf' & _ & _ & Hk & _).
      rewrite Hf in Hf'. injection Hf' as Hg' Hk' Hx' Hy' Hn'.
      rewrite Hf. simpl. rewrite Hk', Hn'. lia.
    - apply early_end_frame in Hrun as (f' & Hf' & Hlog & _).
      rewrite Hf in Hf'. injection Hf' as Hg' Hk' Hx' Hy' Hn'.
      rewrite Hf. simpl. rewrite Hk', Hn'.
      destruct Hlog as [Hlog | [Hlog _]]; lia. }
  intros Hnil. rewrite Hnil in Hle. simpl in Hle. lia.
Qed.

Lemma free_cells_pos N m p :
  in_bounds N p → cell m p = Some 0 → (1 ≤ free_cells N m)%nat.
Proof.
  intros Hin Hcell. unfold free_cells.
  assert (p ∈ filter (λ q, cell m q = Some 0) (cells N)) as Hel.
  { apply list_elem_of_filter. split; [done |]. by apply elem_of_cells. }
  destruct (filter _ (cells N)); [by apply elem_of_nil in Hel | simpl; lia].
Qed.

Lemma cut_walk_constructs :
  SAWEarly.__init__ 20 second_source 4 0 1 0.5 = Done cut_walk.
Proof. vm_compute. reflexivity. Qed.

Lemma one_step_walk_constructs :
  SAWEarly.__init__ 10 first_source 2 0 0 1 = Done one_step_walk.
Proof. vm_compute. reflexivity. Qed.

(** ** What a constructed walk looks like *)

(** X1. [number_of_walks] counts the steps of the trajectory: a walk
    constructed by either class has at least one step, and [self.x],
    [self.y] and the trajectory have one entry more than it has steps. *)
Theorem steps_count_trajectory (N : nat) (x0 y0 : Z) (w : walker) :
  constructs N x0 y0 w →
  (1 ≤ SAW.number_of_walks w)%nat ∧
  length (self_x w) = S (SAW.number_of_walks w) ∧
  length (self_y w) = S (SAW.number_of_walks w) ∧
  length (trajectory w) = S (SAW.number_of_walks w).
Proof.
  intros Hc. apply constructs_accounted in Hc as (f & -> & [Hn Hx Hy _ _]).
  unfold SAW.number_of_walks, trajectory. simpl.
  split_and!; try done. rewrite length_zip_with, Hx, Hy. lia.
Qed.

Lemma steps_count_trajectory_witness :
  constructs 2 0 0 sample_walk ∧
  (1 ≤ SAW.number_of_walks sample_walk)%nat ∧
  length (self_x sample_walk) = S (SAW.number_of_walks sample_walk) ∧
  length (self_y sample_walk) = S (SAW.number_of_walks sample_walk) ∧
  length (trajectory sample_walk) = S (SAW.number_of_walks sample_walk).
Proof.
  split; [exact sample_constructs |].
  exact (steps_count_trajectory 2 0 0 sample_walk sample_constructs).
Defined.

(** X2. The trajectory of a constructed walk moves one lattice unit at a
    time: two consecutive integer positions differ by 1 in one coordinate
    and by 0 in the other. *)
Theorem trajectory_unit_steps (N : nat) (x0 y0 : Z) (w : walker) :
  constructs N x0 y0 w →
  ∀ t q q', trajectory w !! t = Some (at_pos q) →
            trajectory w !! S t = Some (at_pos q') →
            Z.abs (q'.1 - q.1) + Z.abs (q'.2 - q.2) = 1.
Proof.
  intros Hc. apply constructs_accounted in Hc as (f & -> & Ha).
  apply (accounted_path f Ha).
Qed.

Lemma trajectory_unit_steps_witness :
  constructs 2 0 0 sample_walk ∧
  ∀ t q q', trajectory sample_walk !! t = Some (at_pos q) →
            trajectory sample_walk !! S t = Some (at_pos q') →
            Z.abs (q'.1 - q.1) + Z.abs (q'.2 - q.2) = 1.
Proof.
  split; [exact sample_constructs |].
  exact (trajectory_unit_steps 2 0 0 sample_walk sample_constructs).
Defined.

(** X3. The lattice of a constructed walk keeps the shape (N, N) it was
    created with and holds nothing but 0 and the direction codes 1..4. *)
Theorem lattice_shape_and_codes (N : nat) (x0 y0 : Z) (w : walker) :
  constructs N x0 y0 w →
  length (self_grid w) = N ∧
  Forall (λ row : list Z, length row = N) (self_grid w) ∧
  Forall (Forall (λ v : Z, 0 ≤ v ≤ 4)) (self_grid w).
Proof.
  intros Hc.
  destruct (constructs_accounted N x0 y0 w Hc) as (f & Hf & Ha).
  assert (wf_grid N (self_grid w)) as [Hlen Hrows].
  { apply constructs_frame in Hc as (f' & -> & _ & [[Hw _] | Hst]).
    - apply (walking_wf N f' Hw).
    - destruct Hst as (_ & _ & Hg & _). simpl. rewrite Hg. apply zeros_wf. }
  split_and!; try done. rewrite Hf. apply (accounted_codes f Ha).
Qed.

Lemma lattice_shape_and_codes_witness :
  constructs 2 0 0 sample_walk ∧
  length (self_grid sample_walk) = 2%nat ∧
  Forall (λ row : list Z, length row = 2%nat) (self_grid sample_walk) ∧
  Forall (Forall (λ v : Z, 0 ≤ v ≤ 4)) (self_grid sample_walk).
Proof.
  split; [exact sample_constructs |].
  exact (lattice_shape_and_codes 2 0 0 sample_walk sample_constructs).
Defined.

(** X4. A walk that starts on the lattice visits at most every cell once:
    its trajectory has at most N * N positions, one step less. *)
Theorem walk_fits_lattice (N : nat) (x0 y0 : Z) (w : walker) :
  in_bounds N (x0, y0) → constructs N x0 y0 w →
  (length (trajectory w) ≤ N * N)%nat ∧
  (S (SAW.number_of_walks w) ≤ N * N)%nat.
Proof.
  intros Hin Hc.
  destruct (constructs_accounted N x0 y0 w Hc) as (f & Hf & [Hn Hx Hy _ _]).
  apply constructs_frame in Hc as (f' & Hf' & _ & [[Hw Ht] | Hst]);
    [| by destruct (stalled_off_lattice N x0 y0 f' Hin)].
  specialize (Ht Hin).
  destruct (walking_here N f' Hw) as (p & Hij & Hp & _).
  pose proof (free_cells_pos N (f_grid f') p Hp (tagged_here N f' Ht p Hij)) as Hfree.
  pose proof (tagged_free N f' Ht) as Hsum.
  assert (f_n_steps f = f_n_steps f') as Heq.
  { rewrite Hf in Hf'. by injection Hf'. }
  rewrite Hf. unfold trajectory, SAW.number_of_walks. simpl.
  rewrite length_zip_with, Hx, Hy. lia.
Qed.

Lemma walk_fits_lattice_witness :
  in_bounds 2 (0, 0) ∧ constructs 2 0 0 sample_walk ∧
  (length (trajectory sample_walk) ≤ 2 * 2)%nat ∧
  (S (SAW.number_of_walks sample_walk) ≤ 2 * 2)%nat.
Proof.
  assert (in_bounds 2 (0, 0)) as Hin by (unfold in_bounds; simpl; lia).
  split; [exact Hin |]. split; [exact sample_constructs |].
  exact (walk_fits_lattice 2 0 0 sample_walk Hin sample_constructs).
Defined.

(** X5. A walk of [SAW] ends only when it is trapped: at its last position
    no direction leads to an unvisited cell of the lattice.  Its log then has
    exactly one entry for each step, the count of zero being popped. *)
Theorem base_walk_ends_trapped (fuel : nat) (R : random_source) (N : nat)
    (x0 y0 : Z) (w : walker) :
  SAW.__init__ fuel R N x0 y0 = Done w →
  length (self_k w) = SAW.number_of_walks w ∧
  ∃ p, last (trajectory w) = Some (at_pos p) ∧ in_bounds N p ∧
       ∀ d, d ∈ directions → ¬ legal N (self_grid w) (target p d).
Proof.
  intros Hrun.
  apply base_end_frame in Hrun as (f & p & -> & Hw & Hij & Hk & Hnil).
  split; [done |].
  destruct (walking_here N f Hw) as (p' & Hij' & Hin & Hlast).
  rewrite Hij in Hij'. injection Hij' as <-.
  exists p. split_and!; try done.
  intros d Hd Hlegal.
  assert (d ∈ legal_directions N (f_grid f) p) as Hel
    by (by apply elem_of_legal_directions).
  rewrite Hnil in Hel. by apply elem_of_nil in Hel.
Qed.

Lemma base_walk_ends_trapped_witness :
  SAW.__init__ 10 first_source 2 0 0 = Done sample_walk ∧
  length (self_k sample_walk) = SAW.number_of_walks sample_walk ∧
  ∃ p, last (trajectory sample_walk) = Some (at_pos p) ∧ in_bounds 2 p ∧
       ∀ d, d ∈ directions → ¬ legal 2 (self_grid sample_walk) (target p d).
Proof.
  split; [exact base_2x2 |].
  exact (base_walk_ends_trapped 10 first_source 2 0 0 sample_walk base_2x2).
Defined.

(** X6. The log of a walk of [SAWEarly] has one entry for each step, or one
    more: the extra entry is the count kept when the termination draw ended
    the walk, and then a legal move was still open at the last position. *)
Theorem early_log_one_longer (fuel : nat) (R : random_source) (N : nat)
    (x0 y0 : Z) (tp : float) (w : walker) :
  SAWEarly.__init__ fuel R N x0 y0 tp = Done w →
  length (self_k w) = SAW.number_of_walks w ∨
  (length (self_k w) = S (SAW.number_of_walks w) ∧
   ∃ p d, last (trajectory w) = Some (at_pos p) ∧ d ∈ directions ∧
          legal N (self_grid w) (target p d)).
Proof.
  intros Hrun.
  apply early_end_frame in Hrun as (f & -> & [Hlog | (Hlog & p & Hij & Hne)] & Hf);
    [by left | right].
  split; [done |].
  destruct Hf as [Hw | (_ & Hnone & _)]; [| by rewrite Hnone in Hij].
  destruct (walking_here N f Hw) as (p' & Hij' & _ & Hlast).
  rewrite Hij in Hij'. injection Hij' as <-.
  destruct (legal_directions N (f_grid f) p) as [| d l] eqn:Hl; [done |].
  assert (d ∈ legal_directions N (f_grid f) p) as Hel
    by (rewrite Hl; apply list_elem_of_here).
  apply elem_of_legal_directions in Hel as [Hd Hlegal].
  by exists p, d.
Qed.

Lemma early_log_one_longer_witness :
  SAWEarly.__init__ 20 second_source 4 0 1 0.5 = Done cut_walk ∧
  (length (self_k cut_walk) = SAW.number_of_walks cut_walk ∨
   (length (self_k cut_walk) = S (SAW.number_of_walks cut_walk) ∧
    ∃ p d, last (trajectory cut_walk) = Some (at_pos p) ∧ d ∈ directions ∧
           legal 4 (self_grid cut_walk) (target p d))).
Proof.
  split; [exact cut_walk_constructs |].
  exact (early_log_one_longer 20 second_source 4 0 1 0.5 cut_walk
           cut_walk_constructs).
Defined.

(** X7. [trial_probability] never fails on a constructed walk: the log of a
    walk of either class is not empty, and the accessor returns the product
    of the reciprocals 1/k of its entries, in binary64 and in the order of
    the log. *)
Theorem trial_probability_defined (N : nat) (x0 y0 : Z) (w : walker) :
  constructs N x0 y0 w →
  SAW.trial_probability w = Ok (reciprocal_product (self_k w)).
Proof.
  intros Hc. apply trial_probability_nonempty.
  by apply constructs_log_nonempty in Hc.
Qed.

Lemma trial_probability_defined_witness :
  constructs 2 0 0 sample_walk ∧
  SAW.trial_probability sample_walk =
    Ok (reciprocal_product (self_k sample_walk)).
Proof.
  split; [exact sample_constructs |].
  exact (trial_probability_defined 2 0 0 sample_walk sample_constructs).
Defined.

(** ** The methods *)

(** X8. [_walk] from a position of the lattice, in a direction of 1..4:
    it writes the direction code in the cell it leaves and in no other,
    keeps the shape of the array, and returns the position one unit away,
    whether or not that position is on the lattice or free.  Asked to leave
    row or column N, it returns [(None, None)] and writes nothing. *)
Theorem walk_contract (N : nat) (m : ndarray) (i j d : Z) :
  wf_grid N m → d ∈ directions →
  (i = Z.of_nat N ∨ j = Z.of_nat N → SAW._walk m i j d = Ok (m, None)) ∧
  (in_bounds N (i, j) →
   ∃ m', SAW._walk m i j d = Ok (m', Some (target (i, j) d)) ∧
         wf_grid N m' ∧ cell m' (i, j) = Some d ∧
         ∀ q, in_bounds N q → q ≠ (i, j) → cell m' q = cell m q).
Proof.
  intros Hwf Hd. split.
  - intros Hedge. unfold SAW._walk. destruct Hwf as [-> _].
    by rewrite decide_True.
  - intros Hin.
    destruct (walk_in_bounds N m (i, j) d Hwf Hin Hd) as [m' Hwalk].
    exists m'. split; [done |]. simpl in Hwalk.
    apply walk_Some in Hwalk as [Hset _]; [| done].
    apply (setitem_effect N m Hwf) in Hset as (Hwf' & p' & _ & Hp' & Hcell & Hother).
    rewrite (Hp' Hin) in Hcell, Hother. done.
Qed.

Lemma walk_contract_witness :
  wf_grid 2 sample_grid ∧ 1 ∈ directions ∧
  (0 = Z.of_nat 2 ∨ 0 = Z.of_nat 2 → SAW._walk sample_grid 0 0 1 = Ok (sample_grid, None)) ∧
  (in_bounds 2 (0, 0) →
   ∃ m', SAW._walk sample_grid 0 0 1 = Ok (m', Some (target (0, 0) 1)) ∧
         wf_grid 2 m' ∧ cell m' (0, 0) = Some 1 ∧
         ∀ q, in_bounds 2 q → q ≠ (0, 0) → cell m' q = cell sample_grid q).
Proof.
  assert (wf_grid 2 sample_grid) as Hwf.
  { split; [reflexivity | repeat constructor]. }
  assert (1 ∈ directions) as Hd by (apply elem_of_directions; lia).
  split; [exact Hwf |]. split; [exact Hd |].
  exact (walk_contract 2 sample_grid 0 0 1 Hwf Hd).
Defined.

Lemma choose_uniformly_rng {A : Type} R g (l : list A) v g' :
  SAW._choose_uniformly R g l = Ok (v, g') →
  randint_calls g' =
    (randint_calls g + if decide (1 < length l)%nat then 1 else 0)%nat ∧
  uniform_calls g' = uniform_calls g.
Proof.
  unfold SAW._choose_uniformly, randint. case_decide.
  - destruct (l !! _); [| done]. intros [= _ <-]. simpl. lia.
  - destruct (l !! _); [| done]. intros [= _ <-]. lia.
Qed.

(** X9. [_choose_uniformly] returns a member of the list it is given and
    fails, with [IndexError], on the empty list only; it calls [randint]
    once when the list has more than one element and not at all otherwise,
    and never calls [uniform]. *)
Theorem choose_uniformly_contract (A : Type) (R : random_source) (g : rng_state)
    (l : list A) :
  match SAW._choose_uniformly R g l with
  | Ok (v, g') =>
      v ∈ l ∧
      randint_calls g' =
        (randint_calls g + if decide (1 < length l)%nat then 1 else 0)%nat ∧
      uniform_calls g' = uniform_calls g
  | Err e => l = [] ∧ e = IndexError
  end.
Proof.
  destruct (SAW._choose_uniformly R g l) as [[v g'] | e] eqn:Hch.
  - split; [by eapply choose_uniformly_elem |].
    by eapply choose_uniformly_rng.
  - destruct l as [| a l]; [| exfalso].
    + rewrite choose_uniformly_empty in Hch. by injection Hch as <-.
    + destruct (choose_uniformly_nonempty R g (a :: l)) as (v & g' & Hv); [done |].
      congruence.
Qed.

(** X10. When the first draw of [uniform] is below [terminate_probability],
    the walk of [SAWEarly] has exactly one step: the first walk is taken
    before [colide] is looked at, and the loop is not entered. *)
Theorem first_draw_leaves_one_step (fuel : nat) (R : random_source) (N : nat)
    (x0 y0 : Z) (tp : float) (w : walker) :
  (uniform_draws R 0 <? tp)%float = true →
  SAWEarly.__init__ fuel R N x0 y0 tp = Done w →
  SAW.number_of_walks w = 1%nat ∧ length (trajectory w) = 2%nat ∧
  length (self_k w) = 1%nat.
Proof.
  intros Hu. unfold SAWEarly.__init__, SAWEarly._evolution.
  rewrite (early_first_walk_eq N).
  change (uniform_calls rng_start) with 0%nat. rewrite Hu.
  match goal with |- context [SAW.take_step ?R ?i ?j ?pw ?f0] =>
    destruct (SAW.take_step R i j pw f0) as [f1 |] eqn:Hstep
  end; cbn [mbind result_bind outcome_bind lift]; [| done].
  intros [= <-].
  apply take_step_Ok in Hstep as (d & g & m' & ij & _ & _ & ->).
  done.
Qed.

Lemma first_draw_leaves_one_step_witness :
  (uniform_draws first_source 0 <? 1)%float = true ∧
  SAWEarly.__init__ 10 first_source 2 0 0 1 = Done one_step_walk ∧
  SAW.number_of_walks one_step_walk = 1%nat ∧
  length (trajectory one_step_walk) = 2%nat ∧
  length (self_k one_step_walk) = 1%nat.
Proof.
  split; [reflexivity |]. split; [exact one_step_walk_constructs |].
  exact (first_draw_leaves_one_step 10 first_source 2 0 0 1 one_step_walk
           eq_refl one_step_walk_constructs).
Defined.

(** ** The randomness a walk consumes *)

Lemma choices_snoc k n :
  choices (k ++ [n]) = (choices k + if decide (1 < n)%nat then 1 else 0)%nat.
Proof.
  unfold choices. rewrite filter_app, length_app, filter_cons, filter_nil.
  by case_decide.
Qed.

Lemma take_step_rng R i j pw f f' :
  SAW.take_step R i j pw f = Ok f' →
  randint_calls (f_rng f') =
    (randint_calls (f_rng f) + if decide (1 < length pw)%nat then 1 else 0)%nat ∧
  uniform_calls (f_rng f') = uniform_calls (f_rng f) ∧
  f_k f' = f_k f.
Proof.
  unfold SAW.take_step.
  destruct (SAW._choose_uniformly R (f_rng f) pw) as [[d g] |] eqn:Hch;
    simpl; [| done].
  apply choose_uniformly_rng in Hch as [Hr Hu].
  destruct (SAW._walk (f_grid f) i j d) as [[m' ij] |]; simpl; [| done].
  by intros [= <-].
Qed.

(** A turn of the loop of [SAW] calls [randint] once for a logged count
    above 1, and [uniform] never. *)
Lemma base_body_rng R f colide f' (c0 u0 : nat) :
  SAW.loop_body R f = Ok (colide, f') →
  randint_calls (f_rng f) = (c0 + choices (f_k f))%nat →
  uniform_calls (f_rng f) = u0 →
  randint_calls (f_rng f') = (c0 + choices (f_k f'))%nat ∧
  uniform_calls (f_rng f') = u0.
Proof.
  unfold SAW.loop_body. destruct (f_ij f) as [[i j] |]; [| done].
  destruct (SAW._check_walks (f_grid f) i j) as [pw pv].
  case_decide as Hn.
  - intros [= <- <-] Hr Hu. simpl. by rewrite removelast_last.
  - destruct (SAW.take_step R i j pw (SAW.log_append (length pw) f))
      as [f1 |] eqn:Hstep; simpl; [| done].
    intros [= <- <-] Hr Hu.
    apply take_step_rng in Hstep as (Hr' & Hu' & Hk'). simpl in Hr', Hu', Hk'.
    rewrite Hr', Hu', Hk', choices_snoc, Hr. split; [lia | done].
Qed.

Lemma base_while_rng R fuel f r (c0 u0 : nat) :
  while_not_colide (SAW.loop_body R) fuel f = Done r →
  randint_calls (f_rng f) = (c0 + choices (f_k f))%nat →
  uniform_calls (f_rng f) = u0 →
  randint_calls (f_rng r) = (c0 + choices (f_k r))%nat ∧
  uniform_calls (f_rng r) = u0.
Proof.
  revert f. induction fuel as [| fuel IH]; intros f; simpl; [done |].
  destruct (SAW.loop_body R f) as [[c f'] | e] eqn:Hb; [| done].
  intros Hrun Hr Hu.
  destruct (base_body_rng R f c f' c0 u0 Hb Hr Hu) as [Hr' Hu'].
  destruct c.
  - by injection Hrun as <-.
  - by eapply IH.
Qed.

(** X11. The evolution of [SAW] draws a random number only where there is a
    choice: it has called [randint] once for each entry of the log that is
    above 1, none for a forced move, and it has not called [uniform]. *)
Theorem base_randomness (fuel : nat) (R : random_source) (N : nat) (x0 y0 : Z)
    (g : rng_state) (f : frame) :
  SAW._evolution fuel R (SAW.fresh N x0 y0 g) = Done f →
  randint_calls (f_rng f) = (randint_calls g + choices (f_k f))%nat ∧
  uniform_calls (f_rng f) = uniform_calls g.
Proof.
  unfold SAW._evolution. rewrite (base_first_walk_eq N).
  match goal with |- context [SAW.take_step ?R ?i ?j ?pw ?f0] =>
    destruct (SAW.take_step R i j pw f0) as [f1 |] eqn:Hstep
  end; cbn [mbind outcome_bind lift]; [| done].
  intros Hrun.
  apply take_step_rng in Hstep as (Hr & Hu & Hk). simpl in Hr, Hu, Hk.
  eapply base_while_rng; [exact Hrun | | done].
  rewrite Hr, Hk. unfold choices. rewrite filter_cons, filter_nil.
  by case_decide.
Qed.

Lemma base_randomness_witness :
  SAW._evolution 10 first_source (SAW.fresh 2 0 0 rng_start) = Done sample_end ∧
  randint_calls (f_rng sample_end) =
    (randint_calls rng_start + choices (f_k sample_end))%nat ∧
  uniform_calls (f_rng sample_end) = uniform_calls rng_start.
Proof.
  assert (SAW._evolution 10 first_source (SAW.fresh 2 0 0 rng_start)
          = Done sample_end) as Hrun by (vm_compute; reflexivity).
  split; [exact Hrun |].
  exact (base_randomness 10 first_source 2 0 0 rng_start sample_end Hrun).
Defined.

(** ** The failure of a construction *)

Lemma setitem_near N m p v :
  wf_grid N m →
  - Z.of_nat N ≤ p.1 < Z.of_nat N → - Z.of_nat N ≤ p.2 < Z.of_nat N →
  ∃ m', setitem m p v = Ok m'.
Proof.
  intros Hwf H1 H2. unfold setitem. pose proof Hwf as [Hlen _]. rewrite Hlen.
  assert (∀ a, - Z.of_nat N ≤ a < Z.of_nat N → ∃ r, np_index N a = Some r)
    as Hidx.
  { intros a Ha. unfold np_index. repeat case_bool_decide; eauto. lia. }
  destruct (Hidx _ H1) as [r Hr]. rewrite Hr.
  pose proof (np_index_Some N _ _ Hr) as Hlt.
  destruct (lookup_lt_is_Some_2 m r) as [row Hrow]; [lia |].
  rewrite Hrow, (wf_row N m Hwf _ _ Hrow).
  destruct (Hidx _ H2) as [c Hc]. rewrite Hc. eauto.
Qed.

(** With a legal direction at the initial position, the first step does not
    fail. *)
Lemma first_step_succeeds N R x0 y0 k g :
  legal_directions N (zeros N) (x0, y0) ≠ [] →
  ∃ f, SAW.take_step R x0 y0 (legal_directions N (zeros N) (x0, y0))
         (Frame (zeros N) k [Some x0] [Some y0] None 0 g) = Ok f.
Proof.
  intros Hne. unfold SAW.take_step. simpl.
  destruct (choose_uniformly_nonempty R g _ Hne) as (d & g' & Hch).
  rewrite Hch. simpl.
  pose proof (choose_uniformly_elem _ _ _ _ _ Hch) as Hd.
  assert (∃ d', d' ∈ directions ∧ in_bounds N (target (x0, y0) d'))
    as (d' & Hd' & Hin').
  { destruct (legal_directions N (zeros N) (x0, y0)) as [| d' l] eqn:Hl; [done |].
    exists d'. assert (d' ∈ legal_directions N (zeros N) (x0, y0)) as Hel
      by (rewrite Hl; apply list_elem_of_here).
    apply elem_of_legal_directions in Hel as [? [? _]]. done. }
  apply elem_of_legal_directions in Hd as [Hd _].
  pose proof (zeros_wf N) as Hwf. pose proof Hwf as [Hlen _].
  assert (∃ r, SAW._walk (zeros N) x0 y0 d = Ok r) as [[m' ij] Hwalk].
  { unfold SAW._walk. rewrite Hlen. case_decide as Hedge; [eauto |].
    destruct (setitem_near N (zeros N) (x0, y0) d Hwf) as [m' Hset].
    - apply elem_of_directions in Hd'. destruct Hin' as [H1 H2].
      unfold target in H1, H2. repeat case_decide; simpl in *; lia.
    - apply elem_of_directions in Hd'. destruct Hin' as [H1 H2].
      unfold target in H1, H2. repeat case_decide; simpl in *; lia.
    - rewrite Hset. apply elem_of_directions in Hd.
      repeat case_decide; simpl; eauto; lia. }
  rewrite Hwalk. simpl. eauto.
Qed.

(** A loop entered by a walker that stands on the lattice does not fail. *)
Lemma while_walking_no_raise N R body fuel f e :
  walk_body N R body → walking N f →
  while_not_colide body fuel f ≠ Raise e.
Proof.
  intros Hbody. revert f. induction fuel as [| fuel IH]; intros f Hw; simpl;
    [done |].
  destruct (walking_here N f Hw) as (p & Hij & Hin & _).
  destruct (Hbody f p (walking_wf N f Hw) Hij) as (_ & _ & Hthrow).
  destruct (body f) as [[[] f'] | e'] eqn:Hb; [done | |].
  - apply IH. by eapply body_walking.
  - by destruct (Hthrow Hin e').
Qed.

(** X12. A construction, by either class, raises [IndexError] exactly when
    no direction is legal at the initial position, on the lattice of zeros:
    the first walk calls [_choose_uniformly] on the empty list.  That is so
    from every position of a 1x1 lattice. *)
Theorem index_error_without_first_move (fuel : nat) (R : random_source)
    (N : nat) (x0 y0 : Z) (tp : float) :
  (legal_directions N (zeros N) (x0, y0) = [] ↔
   SAW.__init__ fuel R N x0 y0 = Raise IndexError) ∧
  (legal_directions N (zeros N) (x0, y0) = [] ↔
   SAWEarly.__init__ fuel R N x0 y0 tp = Raise IndexError) ∧
  (N = 1%nat → in_bounds N (x0, y0) →
   legal_directions N (zeros N) (x0, y0) = []).
Proof.
  split_and!.
  - unfold SAW.__init__, SAW._evolution. rewrite (base_first_walk_eq N). split.
    + intros ->. reflexivity.
    + intros Hrun.
      destruct (decide (legal_directions N (zeros N) (x0, y0) = []))
        as [Hnil | Hne]; [done | exfalso].
      destruct (first_step_succeeds N R x0 y0
                  [length (legal_directions N (zeros N) (x0, y0))] rng_start Hne)
        as [f1 Hf1].
      rewrite Hf1 in Hrun. cbn [mbind outcome_bind lift] in Hrun.
      rewrite <- (base_first_walk_eq N) in Hf1.
      apply base_first_walk in Hf1 as [_ [[Hw _] | (_ & Hij & _)]].
      * pose proof (while_walking_no_raise N R _ fuel f1 IndexError
                      (base_walk_body N R) Hw) as Hno.
        destruct (while_not_colide (SAW.loop_body R) fuel f1) as [f | e |];
          simpl in Hrun; [done | | done].
        injection Hrun as ->. done.
      * destruct fuel as [| fuel]; simpl in Hrun; [done |].
        by rewrite (base_body_None R f1 Hij) in Hrun.
  - unfold SAWEarly.__init__, SAWEarly._evolution.
    rewrite (early_first_walk_eq N). split.
    + intros ->. reflexivity.
    + intros Hrun.
      destruct (decide (legal_directions N (zeros N) (x0, y0) = []))
        as [Hnil | Hne]; [done | exfalso].
      destruct (first_step_succeeds N R x0 y0
                  [length (legal_directions N (zeros N) (x0, y0))]
                  (RngState (randint_calls rng_start) (S (uniform_calls rng_start)))
                  Hne) as [f1 Hf1].
      pose proof (early_first_walk N tp R x0 y0 rng_start
                    (uniform_draws R (uniform_calls rng_start) <? tp)%float f1)
        as Hfirst.
      rewrite (early_first_walk_eq N), Hf1 in Hfirst.
      destruct (Hfirst eq_refl) as (_ & _ & Hcases).
      rewrite Hf1 in Hrun. cbn [mbind result_bind outcome_bind lift] in Hrun.
      destruct (uniform_draws R (uniform_calls rng_start) <? tp)%float;
        [done |].
      destruct Hcases as [[Hw _] | (_ & Hij & _)].
      * pose proof (while_walking_no_raise N R _ fuel f1 IndexError
                      (early_walk_body N tp R) Hw) as Hno.
        destruct (while_not_colide (SAWEarly.loop_body tp R) fuel f1)
          as [f | e |]; simpl in Hrun; [done | | done].
        injection Hrun as ->. done.
      * destruct fuel as [| fuel]; simpl in Hrun; [done |].
        by rewrite (early_body_None tp R f1 Hij) in Hrun.
  - intros -> Hin. by apply legal_directions_1x1.
Qed.

(** The first step from row or column N: [_walk] refuses it, whatever the
    direction chosen, and the frame records [(None, None)]. *)
Lemma first_step_refused N R x0 y0 g :
  x0 = Z.of_nat N ∨ y0 = Z.of_nat N →
  legal_directions N (zeros N) (x0, y0) ≠ [] →
  ∃ g',
    SAW.take_step R x0 y0 (legal_directions N (zeros N) (x0, y0))
      (Frame (zeros N) [length (legal_directions N (zeros N) (x0, y0))]
             [Some x0] [Some y0] None 0 g) =
    Ok (Frame (zeros N) [length (legal_directions N (zeros N) (x0, y0))]
              [Some x0; None] [Some y0; None] None 1 g').
Proof.
  intros Hedge Hne. unfold SAW.take_step. simpl.
  destruct (choose_uniformly_nonempty R g _ Hne) as (d & g' & Hch).
  rewrite Hch. simpl. exists g'.
  unfold SAW._walk. destruct (zeros_wf N) as [-> _].
  by rewrite decide_True.
Qed.

(** X13. From an initial position on row N or column N, next to the lattice,
    the first step is refused by [_walk], which returns [(None, None)]:
    [SAW] then fails with [TypeError] at its next enumeration, and so does
    [SAWEarly] unless its first draw had set [colide], in which case it
    returns a walk of one counted step whose trajectory ends with
    [(None, None)] and whose lattice is untouched. *)
Theorem refused_first_step (fuel : nat) (R : random_source) (N : nat)
    (x0 y0 : Z) (tp : float) :
  x0 = Z.of_nat N ∨ y0 = Z.of_nat N →
  legal_directions N (zeros N) (x0, y0) ≠ [] →
  SAW.__init__ (S fuel) R N x0 y0 = Raise TypeError ∧
  SAWEarly.__init__ (S fuel) R N x0 y0 tp =
    if (uniform_draws R 0 <? tp)%float then Done (refused_walk N x0 y0)
    else Raise TypeError.
Proof.
  intros Hedge Hne. split.
  - unfold SAW.__init__, SAW._evolution. rewrite (base_first_walk_eq N).
    destruct (first_step_refused N R x0 y0 rng_start Hedge Hne) as [g' ->].
    reflexivity.
  - unfold SAWEarly.__init__, SAWEarly._evolution.
    rewrite (early_first_walk_eq N).
    destruct (first_step_refused N R x0 y0
                (RngState (randint_calls rng_start) (S (uniform_calls rng_start)))
                Hedge Hne) as [g' ->].
    change (uniform_calls rng_start) with 0%nat.
    by destruct (uniform_draws R 0 <? tp)%float.
Qed.

Lemma refused_first_step_witness :
  (2 = Z.of_nat 2 ∨ 0 = Z.of_nat 2) ∧
  legal_directions 2 (zeros 2) (2, 0) ≠ [] ∧
  SAW.__init__ 1 first_source 2 2 0 = Raise TypeError ∧
  SAWEarly.__init__ 1 first_source 2 2 0 1 =
    if (uniform_draws first_source 0 <? 1)%float then Done (refused_walk 2 2 0)
    else Raise TypeError.
Proof.
  assert (2 = Z.of_nat 2 ∨ 0 = Z.of_nat 2) as Hedge by (left; reflexivity).
  assert (legal_directions 2 (zeros 2) (2, 0) ≠ []) as Hne by (vm_compute; congruence).
  split; [exact Hedge |]. split; [exact Hne |].
  exact (refused_first_step 0 first_source 2 2 0 1 Hedge Hne).
Defined.

(** ** The branching factors after the first *)

Lemma target_back p d :
  d ∈ directions → ∃ d', d' ∈ directions ∧ target (target p d) d' = p.
Proof.
  intros Hd. apply elem_of_directions in Hd. destruct p as [a b].
  destruct Hd as [-> | [-> | [-> | ->]]];
    [exists 2 | exists 1 | exists 4 | exists 3];
    (split; [apply elem_of_directions; lia |]);
    unfold target; simpl; f_equal; lia.
Qed.

(** Where the walker cannot go back, at most three directions are legal. *)
Lemma hemmed_count N f p :
  hemmed N f → f_ij f = Some p →
  (length (legal_directions N (f_grid f) p) ≤ 3)%nat.
Proof.
  intros (p' & d & Hij' & Hd & Hnot) Hij. rewrite Hij in Hij'.
  injection Hij' as <-. unfold legal_directions.
  pose proof (length_filter_lt (λ d, legal N (f_grid f) (target p d))
                directions d Hd Hnot) as Hlt.
  simpl in Hlt. lia.
Qed.

(** After a step from a position of the lattice the walker cannot go back:
    the cell it left is marked. *)
Lemma take_step_hemmed N R f f0 f' p :
  wf_grid N (f_grid f) → in_bounds N p → same_walk f f0 →
  SAW.take_step R p.1 p.2 (legal_directions N (f_grid f) p) f0 = Ok f' →
  hemmed N f'.
Proof.
  intros Hwf Hin Hsame Hstep.
  destruct (take_step_on_lattice N R f f0 f' p Hwf Hin Hsame Hstep)
    as (d & Hd & _ & _ & Hcell & _ & _ & _ & Hij' & _).
  destruct (target_back p d Hd) as (d' & Hd' & Hback).
  exists (target p d), d'. split_and!; try done.
  rewrite Hback. intros [_ Hzero]. rewrite Hcell in Hzero.
  apply elem_of_directions in Hd. injection Hzero as ->. lia.
Qed.

(** After the first step too, from wherever it was taken. *)
Lemma first_step_hemmed N R x0 y0 k g f p :
  SAW.take_step R x0 y0 (legal_directions N (zeros N) (x0, y0))
    (Frame (zeros N) k [Some x0] [Some y0] None 0 g) = Ok f →
  f_ij f = Some p → hemmed N f.
Proof.
  intros Hstep Hij.
  apply take_step_Ok in Hstep as (d & g' & m' & ij & Hd & Hwalk & ->).
  simpl in Hij. subst ij. simpl in Hwalk.
  apply elem_of_legal_directions in Hd as [Hd _].
  apply walk_Some in Hwalk as [Hset ->]; [| done].
  apply (setitem_effect N _ (zeros_wf N)) in Hset
    as (_ & p' & _ & Hp' & Hcell & _).
  destruct (target_back (x0, y0) d Hd) as (d' & Hd' & Hback).
  exists (target (x0, y0) d), d'. simpl. split_and!; try done.
  rewrite Hback. intros [Hin Hzero].
  rewrite <- (Hp' Hin), Hcell in Hzero.
  apply elem_of_directions in Hd. injection Hzero as ->. lia.
Qed.

Section Narrowing.
Context (N : nat) (R : random_source) (body : frame → result (bool * frame)).
Hypothesis Hbody : walk_body N R body.

Lemma body_narrows f colide f' :
  walking N f → hemmed N f → log_narrows (f_k f) →
  body f = Ok (colide, f') → hemmed N f' ∧ log_narrows (f_k f').
Proof.
  intros Hw Hhem (n0 & rest & Hk & Hn0 & Hrest) Hstep.
  destruct (walking_here N f Hw) as (p & Hij & Hin & _).
  pose proof (hemmed_count N f p Hhem Hij) as Hle.
  destruct (Hbody f p (walking_wf N f Hw) Hij) as (Hcont & Hbreak & _).
  assert (∀ n, (1 ≤ n ≤ 3)%nat → log_narrows (f_k f ++ [n])) as Hsnoc.
  { intros n Hn. exists n0, (rest ++ [n]). rewrite Hk.
    split; [done |]. split; [done |].
    apply Forall_app. split; [done |]. by apply Forall_singleton. }
  destruct colide.
  - destruct (Hbreak f' Hstep) as [(Hg & _ & _ & Hij' & _) Hk'].
    split.
    + destruct Hhem as (p' & d & Hp' & Hd & Hnot).
      exists p', d. by rewrite Hij', Hg.
    + destruct Hk' as [-> | [Hne ->]]; [by exists n0, rest |].
      apply Hsnoc. lia.
  - destruct (Hcont f' Hstep) as (Hne & f0 & Hsame & Hk0 & Htake).
    split.
    + by eapply (take_step_hemmed N R f f0 f' p (walking_wf N f Hw)).
    + apply take_step_Ok in Htake as (d & g & m' & ij & _ & _ & ->). simpl.
      rewrite Hk0. apply Hsnoc. lia.
Qed.

Lemma during_narrows f1 f :
  walking N f1 → hemmed N f1 → log_narrows (f_k f1) → during body f1 f →
  hemmed N f ∧ log_narrows (f_k f).
Proof.
  intros Hw Hhem Hlog Hd. induction Hd as [| f colide f' Hd IH Hstep]; [done |].
  destruct IH as [Hhem' Hlog'].
  eapply body_narrows; [| done | done | done]. by eapply during_walking.
Qed.

End Narrowing.

(** X14. After the first step the walker never has four ways to go: the log
    of a constructed walk starts with a count of 1..4 and goes on with
    counts of 1..3, the way back being closed. *)
Theorem log_narrows_after_first (N : nat) (x0 y0 : Z) (w : walker) :
  constructs N x0 y0 w →
  ∃ n0 rest, self_k w = n0 :: rest ∧ (1 ≤ n0 ≤ 4)%nat ∧
             Forall (λ n, 1 ≤ n ≤ 3)%nat rest.
Proof.
  intros Hc.
  assert (∀ R g f1,
    SAW.take_step R x0 y0 (legal_directions N (zeros N) (x0, y0))
      (Frame (zeros N) [length (legal_directions N (zeros N) (x0, y0))]
             [Some x0] [Some y0] None 0 g) = Ok f1 →
    log_narrows (f_k f1) ∧ (∀ p, f_ij f1 = Some p → hemmed N f1)) as Hfirst1.
  { intros R g f1 Hstep. split.
    - pose proof (take_step_nonempty _ _ _ _ _ _ Hstep) as Hn.
      pose proof (length_legal_directions N (zeros N) (x0, y0)) as Hn'.
      apply take_step_Ok in Hstep as (d & g' & m' & ij & _ & _ & ->). simpl.
      eexists _, []. split; [done |]. split; [lia | constructor].
    - intros p Hp. by eapply first_step_hemmed. }
  destruct Hc as [(fuel & R & Hrun) | (fuel & R & tp & Hrun)].
  - unfold SAW.__init__, SAW._evolution in Hrun.
    destruct (SAW.first_walk R (SAW.fresh N x0 y0 rng_start))
      as [f1 |] eqn:Hfirst; simpl in Hrun; [| done].
    destruct (while_not_colide (SAW.loop_body R) fuel f1)
      as [f | |] eqn:Hloop; simpl in Hrun; [| done | done].
    injection Hrun as <-. simpl.
    pose proof Hfirst as Hfirst'. rewrite (base_first_walk_eq N) in Hfirst'.
    apply Hfirst1 in Hfirst' as [Hlog Hhem].
    apply base_first_walk in Hfirst as [_ [[Hw _] | (_ & Hij & _)]].
    + destruct (walking_here N f1 Hw) as (p & Hp & _).
      apply while_during in Hloop.
      by destruct (during_narrows N R _ (base_walk_body N R) f1 f Hw
                     (Hhem p Hp) Hlog Hloop).
    + by destruct (while_stalled _ fuel f1 f (base_body_None R) Hij).
  - unfold SAWEarly.__init__, SAWEarly._evolution in Hrun.
    destruct (SAWEarly.first_walk tp R (SAW.fresh N x0 y0 rng_start))
      as [[c f1] |] eqn:Hfirst; simpl in Hrun; [| done].
    pose proof Hfirst as Hfirst'. rewrite (early_first_walk_eq N) in Hfirst'.
    match type of Hfirst' with mbind _ (SAW.take_step ?R ?i ?j ?pw ?f0) = _ =>
      destruct (SAW.take_step R i j pw f0) as [f2 |] eqn:Hstep; [| done]
    end.
    simpl in Hfirst'. injection Hfirst' as _ ->.
    apply Hfirst1 in Hstep as [Hlog Hhem].
    apply early_first_walk in Hfirst as (_ & _ & Hf1).
    destruct c.
    + simpl in Hrun. by injection Hrun as <-.
    + destruct (while_not_colide (SAWEarly.loop_body tp R) fuel f1)
        as [f | |] eqn:Hloop; simpl in Hrun; [| done | done].
      injection Hrun as <-. simpl.
      destruct Hf1 as [[Hw _] | (_ & Hij & _)].
      * destruct (walking_here N f1 Hw) as (p & Hp & _).
        apply while_during in Hloop.
        by destruct (during_narrows N R _ (early_walk_body N tp R) f1 f Hw
                       (Hhem p Hp) Hlog Hloop).
      * by destruct (while_stalled _ fuel f1 f (early_body_None tp R) Hij).
Qed.

Lemma log_narrows_after_first_witness :
  constructs 2 0 0 sample_walk ∧
  ∃ n0 rest, self_k sample_walk = n0 :: rest ∧ (1 ≤ n0 ≤ 4)%nat ∧
             Forall (λ n, 1 ≤ n ≤ 3)%nat rest.
Proof.
  split; [exact sample_constructs |].
  exact (log_narrows_after_first 2 0 0 sample_walk sample_constructs).
Defined.
